(** * redis-lite: a shallow embedding of the RESP codec, the store and the
    connection loop, with the properties of the specification.

    Layout
    - [Go]      : the pieces of the Go runtime and standard library the
                  program calls (int64 arithmetic, strconv, fmt's %d, bufio,
                  io.ReadFull, strings.ToUpper), modelled from their
                  documented behaviour;
    - [resp]    : package resp (value.go, reader.go, writer.go);
    - top level : package main (Entry, Store, the handlers, the connection
                  loop and the janitor).

    Conventions
    - a Go [string] is a [string]; a [[]byte] is a [list ascii], and a
      possibly-nil [[]byte] is an [option (list ascii)] ([None] is nil);
    - [int] and [int64] are [Z] with the 64-bit wrap-around written out;
    - [time.Now().UnixMilli()] is a parameter [now] of every function that
      reads the clock;
    - a [*bufio.Reader] is the list of bytes still to come (the stream ends
      where the list ends); a [*bufio.Writer] is the list of bytes written
      so far;
    - the read/write lock of the store is not modelled: every operation is
      one atomic step on the map. *)

From Stdlib Require Import ZArith Ascii String List Lia.
From stdpp Require Import base gmap strings list fin_maps.

Local Open Scope Z_scope.

Abbreviation byte := ascii (only parsing).
Abbreviation bytes := (list ascii) (only parsing).

(* ===================================================================== *)
(** * The Go runtime and library functions the program relies on          *)
(* ===================================================================== *)

Module Go.

(** [[]byte(s)] and [string(b)] *)
Definition bytes_of (s : string) : bytes := list_ascii_of_string s.
Definition string_of (b : bytes) : string := string_of_list_ascii b.
Arguments bytes_of s%_string.

(** [string(b)] for a possibly-nil slice: [string(nil)] is the empty string *)
Definition string_of_slice (b : option bytes) : string :=
  match b with Some l => string_of l | None => EmptyString end.

(** the numeric value of a byte *)
Definition byteZ (c : byte) : Z := Z.of_N (N_of_ascii c).
Definition byte_of_Z (z : Z) : byte := ascii_of_N (Z.to_N (z mod 256)).

(** ** int64 *)
Definition MinInt64 : Z := - 2 ^ 63.
Definition MaxInt64 : Z := 2 ^ 63 - 1.
Definition MaxUint64 : Z := 2 ^ 64 - 1.

Definition int64 (z : Z) : Prop := MinInt64 <= z <= MaxInt64.

(** two's complement wrap-around of a mathematical result *)
Definition wrap64 (z : Z) : Z := (z + 2 ^ 63) mod 2 ^ 64 - 2 ^ 63.

Definition add64 (a b : Z) : Z := wrap64 (a + b).
Definition sub64 (a b : Z) : Z := wrap64 (a - b).
Definition mul64 (a b : Z) : Z := wrap64 (a * b).
(** Go's [/] truncates toward zero *)
Definition div64 (a b : Z) : Z := wrap64 (Z.quot a b).

(** ** strconv *)
Inductive NumError := ErrSyntax | ErrRange.

Definition isDigit (c : byte) : bool := (48 <=? byteZ c) && (byteZ c <=? 57).

(** the loop of [strconv.ParseUint(s, 10, 64)]: a byte that is not a decimal
    digit is a syntax error, an overflow stops the scan with the maximal
    value. *)
Fixpoint ParseUint_loop (s : bytes) (n : Z) : Z * option NumError :=
  match s with
  | [] => (n, None)
  | c :: s' =>
      if isDigit c then
        let d := byteZ c - 48 in
        if MaxUint64 / 10 + 1 <=? n then (MaxUint64, Some ErrRange)
        else
          let n1 := n * 10 + d in
          if MaxUint64 <? n1 then (MaxUint64, Some ErrRange)
          else ParseUint_loop s' n1
      else (0, Some ErrSyntax)
  end.

Definition ParseUint (s : bytes) : Z * option NumError :=
  match s with
  | [] => (0, Some ErrSyntax)
  | _ => ParseUint_loop s 0
  end.

(** [strconv.ParseInt(s, 10, 64)] *)
Definition ParseInt (s : string) : Z * option NumError :=
  match bytes_of s with
  | [] => (0, Some ErrSyntax)
  | c :: rest =>
      let neg := Ascii.eqb c "-" in
      let digits := if Ascii.eqb c "+" || neg then rest else c :: rest in
      match ParseUint digits with
      | (_, Some ErrSyntax) => (0, Some ErrSyntax)
      | (un, _) =>
          let cutoff := 2 ^ 63 in
          if negb neg && (cutoff <=? un) then (cutoff - 1, Some ErrRange)
          else if neg && (cutoff <? un) then (- cutoff, Some ErrRange)
          else (if neg then - un else un, None)
      end
  end.

(** [strconv.Atoi(s)] is [ParseInt(s, 10, 0)] converted to [int]; [int] is
    taken to be 64 bits wide. *)
Definition Atoi (s : string) : Z * option NumError := ParseInt s.

(** ** fmt: the verb %d *)
Definition digitChar (d : Z) : byte := byte_of_Z (48 + d).

Fixpoint fmtUint_fuel (fuel : nat) (n : Z) : bytes :=
  match fuel with
  | O => []
  | S fuel' =>
      if n <? 10 then [digitChar n]
      else fmtUint_fuel fuel' (n / 10) ++ [digitChar (n mod 10)]
  end.

(** decimal digits of a non-negative number, most significant first *)
Definition fmtUint (n : Z) : bytes := fmtUint_fuel (S (Z.to_nat (Z.log2 n))) n.

Definition fmtInt (z : Z) : bytes :=
  if z <? 0 then "-"%char :: fmtUint (- z) else fmtUint z.

(** ** errors *)
Inductive error :=
  | EOF                              (* io.EOF *)
  | ErrUnexpectedEOF                 (* io.ErrUnexpectedEOF *)
  | errors_New (msg : string).       (* errors.New(msg) *)

(** what a call can do: return normally, return a non-nil [error], or
    panic.  A panic that no frame recovers ends the whole process. *)
Inductive result (A : Type) :=
  | Ok (a : A)
  | Err (e : error)
  | Panic (msg : string).
Arguments Ok {A} a.
Arguments Err {A} e.
Arguments Panic {A} msg%_string.

(** ** bufio.Reader, io.ReadFull, bufio.Writer *)
Definition Reader := bytes.
Definition Writer := bytes.

Definition LF : byte := "010"%char.
Definition CR : byte := "013"%char.
Definition CRLF : bytes := [CR; LF].

(** [r.ReadByte()] *)
Definition ReadByte (r : Reader) : option byte * option error * Reader :=
  match r with
  | [] => (None, Some EOF, [])
  | c :: r' => (Some c, None, r')
  end.

(** [r.ReadBytes(delim)]: the bytes up to and including the first [delim];
    when the stream ends first, the bytes read so far and [io.EOF]. *)
Fixpoint ReadBytes (delim : byte) (r : Reader) : bytes * option error * Reader :=
  match r with
  | [] => ([], Some EOF, [])
  | c :: r' =>
      if Ascii.eqb c delim then ([c], None, r')
      else let '(b, err, r'') := ReadBytes delim r' in (c :: b, err, r'')
  end.

(** [io.ReadFull(r, buf)] with [len(buf) = n]: exactly [n] bytes, or
    [io.EOF] when none could be read and [io.ErrUnexpectedEOF] when the
    stream ended after some but not all of them. *)
Definition ReadFull (r : Reader) (n : Z) : bytes * option error * Reader :=
  if n <=? 0 then ([], None, r)
  else if Z.of_nat (length r) =? 0 then ([], Some EOF, r)
  else if Z.of_nat (length r) <? n then (r, Some ErrUnexpectedEOF, [])
  else (take (Z.to_nat n) r, None, drop (Z.to_nat n) r).

(** ** bytes.TrimSuffix *)
Fixpoint HasPrefix (s p : bytes) {struct p} : bool :=
  match p, s with
  | [], _ => true
  | _ :: _, [] => false
  | c :: p', d :: s' => Ascii.eqb c d && HasPrefix s' p'
  end.

Definition HasSuffix (s suffix : bytes) : bool := HasPrefix (rev s) (rev suffix).

Definition TrimSuffix (s suffix : bytes) : bytes :=
  if HasSuffix s suffix then take (length s - length suffix)%nat s else s.

(** ** strings.ToUpper *)

(** the test the library makes first: every byte is below [utf8.RuneSelf] *)
Definition isASCII (s : string) : bool :=
  forallb (fun c => byteZ c <? 128) (bytes_of s).

Definition upperByte (c : byte) : byte :=
  if (97 <=? byteZ c) && (byteZ c <=? 122) then byte_of_Z (byteZ c - 32) else c.

(** [strings.ToUpper] on a string of ASCII bytes, where the library maps
    byte by byte.  On any other string the library decodes UTF-8 and maps
    runes (U+017F and U+0131 become S and I, an invalid byte becomes U+FFFD);
    that path is not modelled, and this definition is the library's only
    where [isASCII] holds. *)
Definition ToUpper (s : string) : string := string_of (map upperByte (bytes_of s)).

(** ** runtime.makeslice *)

(** the largest size in bytes the allocator accepts, on a 64-bit platform
    with 48 bits of heap address (linux/amd64) *)
Definition maxAlloc : Z := 2 ^ 48.

(** [make] returns a slice of [len] elements of [elemSize] bytes each,
    when the allocator can still hand out [avail] bytes.  [makeslice]
    panics with "len out of range" on a negative length and on a size
    beyond [maxAlloc]; a size it accepts but cannot serve ends the process
    with "out of memory". *)
Definition makeslice_ok (avail elemSize len : Z) : Prop :=
  0 <= len /\ elemSize * len <= avail /\ avail <= maxAlloc.

End Go.

(* ===================================================================== *)
(** * package resp                                                        *)
(* ===================================================================== *)

Module resp.
Import Go.

(** ** value.go *)
Inductive Type_ := SimpleString | Error | Integer | BulkString | Array.

#[global] Instance Type_eq_dec : EqDecision Type_.
Proof. solve_decision. Defined.

(** [A] is a list: a nil slice and an empty one are not told apart (the
    program only takes [len] of it and indexes it). *)
Inductive Value := mkValue {
  T : Type_;
  S : string;
  I : Z;
  B : option bytes;
  A : list Value
}.

(** the zero value [Value{}] *)
Definition Value0 : Value := mkValue SimpleString "" 0 None [].

(** [unsafe.Sizeof(Value{})] on a 64-bit platform: an [int], a string
    header, an [int64] and two slice headers *)
Definition sizeof_Value : Z := 8 + 16 + 8 + 24 + 24.

(** ** reader.go *)
Definition readLine (r : Reader) : string * option error * Reader :=
  let '(b, err, r) := ReadBytes LF r in
  match err with
  | Some e => (EmptyString, Some e, r)
  | None => (string_of (TrimSuffix b CRLF), None, r)
  end.

(** the element loop of the array case: [k] iterations are left, [i] is
    the index to fill. *)
Fixpoint readElems (rd : Reader -> option (result (Value * Reader)))
  (k i : nat) (r : Reader) (arr : list Value)
  : option (result (list Value * Reader)) :=
  match k with
  | O => Some (Ok (arr, r))
  | Datatypes.S k' =>
      match rd r with
      | None => None
      | Some (Err e) => Some (Err e)
      | Some (Panic m) => Some (Panic m)
      | Some (Ok (v, r')) => readElems rd k' (Datatypes.S i) r' (<[i := v]> arr)
      end
  end.

(** [Read], with a bound on the nesting depth of the recursion: [None]
    when the bound is reached.  [make] panics on a negative length.  The
    runtime also refuses a length beyond [Go.maxAlloc] bytes (see
    [Go.makeslice_ok]) and can run out of memory or of stack; none of these
    is modelled: there the model goes on to read where the program stops.
    The statements that a truncated frame ends in an I/O error take
    [Go.makeslice_ok], that [make] returns, as a hypothesis.  The slice
    [arr] is filled by index, as in the source. *)
Fixpoint Read_fuel (fuel : nat) (r : Reader) : option (result (Value * Reader)) :=
  match fuel with
  | O => None
  | Datatypes.S fuel' =>
      match ReadByte r with
      | (_, Some err, _) => Some (Err err)
      | (None, None, _) => Some (Err EOF)
      | (Some prefix, None, r) =>
          if Ascii.eqb prefix "+" then
            let '(line, _, r) := readLine r in
            Some (Ok (mkValue SimpleString line 0 None [], r))
          else if Ascii.eqb prefix "-" then
            let '(line, _, r) := readLine r in
            Some (Ok (mkValue Error line 0 None [], r))
          else if Ascii.eqb prefix ":" then
            let '(line, _, r) := readLine r in
            let '(n, _) := ParseInt line in
            Some (Ok (mkValue Integer "" n None [], r))
          else if Ascii.eqb prefix "$" then
            let '(nstr, _, r) := readLine r in
            let '(n, _) := Atoi nstr in
            if n =? -1 then Some (Ok (mkValue BulkString "" 0 None [], r))
            else
              let len := add64 n 2 in
              if len <? 0 then Some (Panic "makeslice: len out of range")
              else
                let '(buf, err, r) := ReadFull r len in
                match err with
                | Some e => Some (Err e)
                | None =>
                    if n <? 0 then Some (Panic "slice bounds out of range")
                    else Some (Ok (mkValue BulkString "" 0
                                     (Some (take (Z.to_nat n) buf)) [], r))
                end
          else if Ascii.eqb prefix "*" then
            let '(nstr, _, r) := readLine r in
            let '(n, _) := Atoi nstr in
            if n <? 0 then Some (Panic "makeslice: len out of range")
            else
              match readElems (Read_fuel fuel') (Z.to_nat n) 0 r
                      (replicate (Z.to_nat n) Value0) with
              | None => None
              | Some (Err e) => Some (Err e)
              | Some (Panic m) => Some (Panic m)
              | Some (Ok (arr, r)) => Some (Ok (mkValue Array "" 0 None arr, r))
              end
          else Some (Err (errors_New "unknown RESP prefix"))
      end
  end.

(** every nested call of [Read] is made on a stream that lost at least the
    prefix byte, so a depth of one more than the length of the stream is
    never reached (see [Read_fuel_enough]). *)
Definition Read (r : Reader) : result (Value * Reader) :=
  match Read_fuel (Datatypes.S (length r)) r with
  | Some res => res
  | None => Err EOF
  end.

(** ** writer.go *)
Definition WriteSimpleString (w : Writer) (s : string) : Writer :=
  w ++ "+"%char :: bytes_of s ++ CRLF.

Definition WriteError (w : Writer) (s : string) : Writer :=
  w ++ "-"%char :: bytes_of s ++ CRLF.

Definition WriteInteger (w : Writer) (i : Z) : Writer :=
  w ++ ":"%char :: fmtInt i ++ CRLF.

Definition WriteBulk (w : Writer) (b : option bytes) : Writer :=
  match b with
  | None => w ++ bytes_of "$-1" ++ CRLF
  | Some b => (w ++ "$"%char :: fmtInt (Z.of_nat (length b)) ++ CRLF) ++ b ++ CRLF
  end.

Fixpoint WriteArray_elems (w : Writer) (arr : list Value) : Writer * option error :=
  match arr with
  | [] => (w, None)
  | v :: arr' =>
      match T v with
      | SimpleString => WriteArray_elems (WriteSimpleString w (S v)) arr'
      | Error => WriteArray_elems (WriteError w (S v)) arr'
      | Integer => WriteArray_elems (WriteInteger w (I v)) arr'
      | BulkString => WriteArray_elems (WriteBulk w (B v)) arr'
      | Array => (w, Some (errors_New "unsupported nested type"))
      end
  end.

Definition WriteArray (w : Writer) (arr : list Value) : Writer * option error :=
  WriteArray_elems (w ++ "*"%char :: fmtInt (Z.of_nat (length arr)) ++ CRLF) arr.

End resp.

(* ===================================================================== *)
(** * package main                                                        *)
(* ===================================================================== *)

Import Go.

Record Entry := mkEntry {
  val : option bytes;
  exp : Z                      (* unix ms, 0 means no expiry *)
}.

Record Store := mkStore {
  data : gmap string Entry
}.

(** [(Entry, bool)] is an [option Entry]: no caller looks at the entry
    returned with [false]. *)
Definition get (s : Store) (key : string) (now : Z) : option Entry :=
  match data s !! key with
  | None => None
  | Some e => if (0 <? exp e) && (exp e <? now) then None else Some e
  end.

Definition set (s : Store) (key : string) (v : option bytes) (ttlMs : Z) (now : Z)
  : Store :=
  let exp := if 0 <? ttlMs then add64 now ttlMs else 0 in
  mkStore (<[key := mkEntry v exp]> (data s)).

(** the loop of [del]; [n] counts at most [len(keys)] and cannot overflow *)
Fixpoint del_loop (m : gmap string Entry) (keys : list string) (n : Z)
  : gmap string Entry * Z :=
  match keys with
  | [] => (m, n)
  | k :: keys' =>
      match m !! k with
      | Some _ => del_loop (delete k m) keys' (n + 1)
      | None => del_loop m keys' n
      end
  end.

Definition del (s : Store) (keys : list string) : Store * Z :=
  let '(m, n) := del_loop (data s) keys 0 in (mkStore m, n).

(** [args[i]]; every use below is guarded by a check of [len(args)] *)
Definition index (args : list resp.Value) (i : nat) : resp.Value :=
  nth i args resp.Value0.

Definition parseIntMs (b : option bytes) (mul : Z) : Z :=
  let n := fold_left
             (fun n c => add64 (mul64 n 10) ((byteZ c - 48) mod 256))
             (default [] b) 0 in
  mul64 n mul.

Definition handleSet (w : Writer) (st : Store) (args : list resp.Value) (now : Z)
  : Writer * Store :=
  if (length args <? 3)%nat then
    (resp.WriteError w "ERR wrong number of arguments for 'set'", st)
  else
    let key := string_of_slice (resp.B (index args 1)) in
    let v := resp.B (index args 2) in
    let ttlMs :=
      if (5 <=? length args)%nat then
        let opt := ToUpper (string_of_slice (resp.B (index args 3))) in
        let ttlMs := if String.eqb opt "EX"
                     then parseIntMs (resp.B (index args 4)) 1000 else 0 in
        if String.eqb opt "PX" then parseIntMs (resp.B (index args 4)) 1 else ttlMs
      else 0 in
    (resp.WriteSimpleString w "OK", set st key v ttlMs now).

Definition handleGet (w : Writer) (st : Store) (args : list resp.Value) (now : Z)
  : Writer :=
  if negb (length args =? 2)%nat then
    resp.WriteError w "ERR wrong number of arguments for 'get'"
  else
    let key := string_of_slice (resp.B (index args 1)) in
    match get st key now with
    | None => resp.WriteBulk w None
    | Some e => resp.WriteBulk w (val e)
    end.

Definition handleDel (w : Writer) (st : Store) (args : list resp.Value)
  : Writer * Store :=
  if (length args <? 2)%nat then
    (resp.WriteError w "ERR wrong number of arguments for 'del'", st)
  else
    let keys := map (fun a => string_of_slice (resp.B a)) (drop 1 args) in
    let '(st', n) := del st keys in
    (resp.WriteInteger w n, st').

Definition handleExpire (w : Writer) (st : Store) (args : list resp.Value) (now : Z)
  : Writer * Store :=
  if negb (length args =? 3)%nat then
    (resp.WriteError w "ERR wrong number of arguments for 'expire'", st)
  else
    let key := string_of_slice (resp.B (index args 1)) in
    let secs := parseIntMs (resp.B (index args 2)) 1000 in
    match data st !! key with
    | Some e =>
        (resp.WriteInteger w 1,
         mkStore (<[key := mkEntry (val e) (add64 now secs)]> (data st)))
    | None => (resp.WriteInteger w 0, st)
    end.

Definition handleTTL (w : Writer) (st : Store) (args : list resp.Value) (now : Z)
  : Writer :=
  if negb (length args =? 2)%nat then
    resp.WriteError w "ERR wrong number of arguments for 'ttl'"
  else
    match data st !! string_of_slice (resp.B (index args 1)) with
    | None => resp.WriteInteger w (-2)
    | Some e =>
        if exp e =? 0 then resp.WriteInteger w (-1)
        else
          let ms := sub64 (exp e) now in
          if ms <? 0 then resp.WriteInteger w (-2)
          else resp.WriteInteger w (div64 ms 1000)
    end.

(** ** The connection loop *)

(** the body of the [switch] of [handleConn], for a decoded non-empty array *)
Definition dispatch (w : Writer) (st : Store) (v : resp.Value) (now : Z)
  : Writer * Store :=
  let args := resp.A v in
  let cmd := ToUpper (string_of_slice (resp.B (index args 0))) in
  if String.eqb cmd "PING" then
    if (1 <? length args)%nat then (resp.WriteBulk w (resp.B (index args 1)), st)
    else (resp.WriteSimpleString w "PONG", st)
  else if String.eqb cmd "ECHO" then
    if negb (length args =? 2)%nat
       || negb (bool_decide (resp.T (index args 1) = resp.BulkString))
    then (resp.WriteError w "ERR wrong number of arguments for 'echo'", st)
    else (resp.WriteBulk w (resp.B (index args 1)), st)
  else if String.eqb cmd "SET" then handleSet w st args now
  else if String.eqb cmd "GET" then (handleGet w st args now, st)
  else if String.eqb cmd "DEL" then handleDel w st args
  else if String.eqb cmd "EXPIRE" then handleExpire w st args now
  else if String.eqb cmd "TTL" then (handleTTL w st args now, st)
  else (resp.WriteError w ("ERR unknown command '" +:+ cmd +:+ "'"), st).

(** what one turn of the [for] loop of [handleConn] does *)
Inductive Step :=
  | Continue (w : Writer) (st : Store) (r : Reader)  (* reply flushed, loop again *)
  | Return (w : Writer) (st : Store)                 (* [return]: the connection is closed *)
  | Crash (msg : string).                            (* an unrecovered panic *)

Definition handleConn_step (w : Writer) (st : Store) (r : Reader) (now : Z) : Step :=
  match resp.Read r with
  | Panic m => Crash m
  | Err _ => Return w st                  (* client closed or parse error *)
  | Ok (v, r') =>
      if negb (bool_decide (resp.T v = resp.Array)) || (length (resp.A v) =? 0)%nat
      then Continue (resp.WriteError w "ERR protocol error") st r'
      else let '(w', st') := dispatch w st v now in Continue w' st' r'
  end.

(** the loop itself; [clock i] is the time read during turn [i].  [None]
    when [fuel] turns were not enough. *)
Fixpoint handleConn_fuel (fuel : nat) (clock : nat -> Z) (i : nat)
  (w : Writer) (st : Store) (r : Reader) : option (result (Writer * Store)) :=
  match fuel with
  | O => None
  | S fuel' =>
      match handleConn_step w st r (clock i) with
      | Crash m => Some (Panic m)
      | Return w' st' => Some (Ok (w', st'))
      | Continue w' st' r' => handleConn_fuel fuel' clock (S i) w' st' r'
      end
  end.

(** every turn that continues has consumed at least one byte, so one turn
    more than the length of the stream is enough (see
    [handleConn_fuel_enough]). *)
Definition handleConn (clock : nat -> Z) (w : Writer) (st : Store) (r : Reader)
  : result (Writer * Store) :=
  match handleConn_fuel (S (length r)) clock 0 w st r with
  | Some res => res
  | None => Ok (w, st)
  end.

(** ** The janitor *)

(** one scan of the map.  [entries] are the pairs the [range] loop visits;
    Go leaves their order unspecified. *)
Definition janitor_scan (entries : list (string * Entry)) (now : Z)
  (m : gmap string Entry) : gmap string Entry :=
  fold_left
    (fun m ke => if (0 <? exp ke.2) && (exp ke.2 <? now) then delete ke.1 m else m)
    entries m.

(** one tick, visiting the entries in the order [entries] *)
Definition janitor_tick_in (entries : list (string * Entry)) (st : Store) (now : Z)
  : Store :=
  mkStore (janitor_scan entries now (data st)).

Definition janitor_tick (st : Store) (now : Z) : Store :=
  janitor_tick_in (map_to_list (data st)) st now.

(* ===================================================================== *)
(** * Vocabulary of the statements                                        *)
(* ===================================================================== *)

(** the number a run of decimal digits denotes, continuing from [acc] *)
Definition digitsValue (l : bytes) (acc : Z) : Z :=
  fold_left (fun a c => a * 10 + (byteZ c - 48)) l acc.

(** a reader that answers on every stream shorter than [bound] and
    consumes at least one byte when it succeeds *)
Definition answers (rd : Reader -> option (result (resp.Value * Reader)))
  (bound : nat) : Prop :=
  forall r, (length r < bound)%nat ->
    exists res, rd r = Some res /\
      forall v r', res = Ok (v, r') -> (length r' < length r)%nat.

(** a bulk string value, as [Read] builds it *)
Definition bulk (b : option bytes) : resp.Value :=
  resp.mkValue resp.BulkString "" 0 b [].

(** a length a Go slice can have, with room for the two terminator bytes *)
Definition bulk_ok (b : option bytes) : Prop :=
  forall l, b = Some l -> Z.of_nat (length l) + 2 <= MaxInt64.

(** the bytes of a client request: an array of bulk strings, written by
    [WriteArray] *)
Definition command (args : list (option bytes)) : bytes :=
  (resp.WriteArray [] (map bulk args)).1.

(** a scalar value as [Read] builds it, with a text that fits on a line:
    the fields its kind does not use are zero *)
Definition scalar_ok (v : resp.Value) : Prop :=
  match resp.T v with
  | resp.SimpleString | resp.Error =>
      (LF ∉ bytes_of (resp.S v)) /\ resp.I v = 0 /\ resp.B v = None /\ resp.A v = []
  | resp.Integer =>
      int64 (resp.I v) /\ resp.S v = EmptyString /\ resp.B v = None /\ resp.A v = []
  | resp.BulkString =>
      bulk_ok (resp.B v) /\ resp.S v = EmptyString /\ resp.I v = 0 /\ resp.A v = []
  | resp.Array => False
  end.

(** the bytes [WriteArray] writes for the elements [vs], after the header *)
Definition elements_bytes (vs : list resp.Value) : bytes :=
  (resp.WriteArray_elems [] vs).1.

(** the command name the loop dispatches on *)
Definition command_name (v : resp.Value) : string :=
  ToUpper (string_of_slice (resp.B (index (resp.A v) 0))).

(** the first byte of a reply: one of the four scalar prefixes *)
Definition reply_prefix (c : byte) : Prop :=
  c = "+"%char \/ c = "-"%char \/ c = ":"%char \/ c = "$"%char.

(** the requests [cmds] handled one after the other, the one at position
    [j] at time [clock (i + j)] *)
Fixpoint run_commands (clock : nat -> Z) (i : nat) (w : Writer) (st : Store)
  (cmds : list (list (option bytes))) : Writer * Store :=
  match cmds with
  | [] => (w, st)
  | args :: cmds' =>
      let '(w', st') :=
        dispatch w st (resp.mkValue resp.Array "" 0 None (map bulk args)) (clock i) in
      run_commands clock (S i) w' st' cmds'
  end.

(* ===================================================================== *)
(** * Properties of the library model                                     *)
(* ===================================================================== *)

Section GoFacts.

Lemma wrap64_id z : int64 z -> wrap64 z = z.
Proof.
  unfold int64, MinInt64, MaxInt64, wrap64. intros Hz.
  rewrite Z.mod_small; lia.
Qed.

Lemma wrap64_int64 z : int64 (wrap64 z).
Proof.
  unfold int64, MinInt64, MaxInt64, wrap64.
  pose proof (Z.mod_pos_bound (z + 2 ^ 63) (2 ^ 64)). lia.
Qed.

Lemma byteZ_range c : 0 <= byteZ c < 256.
Proof.
  unfold byteZ. pose proof (N_ascii_bounded c). lia.
Qed.

Lemma byteZ_byte_of_Z z : 0 <= z < 256 -> byteZ (byte_of_Z z) = z.
Proof.
  intros Hz. unfold byteZ, byte_of_Z.
  rewrite Z.mod_small by lia.
  rewrite N_ascii_embedding by lia. lia.
Qed.

Lemma byteZ_inj c d : byteZ c = byteZ d -> c = d.
Proof.
  unfold byteZ. intros H. apply N2Z.inj in H.
  rewrite <- (ascii_N_embedding c), <- (ascii_N_embedding d). by rewrite H.
Qed.

Lemma string_of_bytes_of s : string_of (bytes_of s) = s.
Proof. apply string_of_list_ascii_of_string. Qed.

Lemma bytes_of_string_of b : bytes_of (string_of b) = b.
Proof. apply list_ascii_of_string_of_list_ascii. Qed.

(** *** decimal digits *)

Lemma digitChar_value d : 0 <= d <= 9 -> byteZ (digitChar d) = 48 + d.
Proof. intros Hd. unfold digitChar. apply byteZ_byte_of_Z. lia. Qed.

Lemma digitChar_isDigit d : 0 <= d <= 9 -> isDigit (digitChar d) = true.
Proof.
  intros Hd. unfold isDigit. rewrite digitChar_value by done.
  apply andb_true_iff. split; apply Z.leb_le; lia.
Qed.

Lemma isDigit_value c : isDigit c = true -> 0 <= byteZ c - 48 <= 9.
Proof. unfold isDigit. intros [H1 H2]%andb_true_iff. lia. Qed.

Lemma digitsValue_ge l : forall acc,
  Forall (fun c => isDigit c = true) l -> 0 <= acc -> acc <= digitsValue l acc.
Proof.
  induction l as [|c l IH]; intros acc Hl Hacc; simpl; [lia|].
  inversion Hl as [|? ? Hc Hl']; subst.
  pose proof (isDigit_value c Hc).
  etrans; [|apply IH]; [lia | done | lia].
Qed.

Lemma ParseUint_loop_digits l : forall acc,
  Forall (fun c => isDigit c = true) l -> 0 <= acc ->
  digitsValue l acc <= MaxUint64 ->
  ParseUint_loop l acc = (digitsValue l acc, None).
Proof.
  induction l as [|c l IH]; intros acc Hl Hacc Hmax; simpl; [done|].
  inversion Hl as [|? ? Hc Hl']; subst. rewrite Hc.
  pose proof (isDigit_value c Hc) as Hd.
  assert (acc * 10 + (byteZ c - 48) <= MaxUint64) as Hn1.
  { etrans; [apply (digitsValue_ge l)|exact Hmax]; [done|lia]. }
  unfold MaxUint64 in *.
  destruct (Z.leb_spec (((2 ^ 64 - 1) / 10) + 1) acc) as [Hge|_].
  { change ((2 ^ 64 - 1) / 10 + 1) with 1844674407370955162 in Hge. lia. }
  destruct (Z.ltb_spec (2 ^ 64 - 1) (acc * 10 + (byteZ c - 48))) as [Hlt|_]; [lia|].
  apply IH; [done | lia | done].
Qed.

Lemma fmtUint_fuel_digits fuel : forall n,
  0 <= n -> Forall (fun c => isDigit c = true) (fmtUint_fuel fuel n).
Proof.
  induction fuel as [|fuel IH]; intros n Hn; simpl; [constructor|].
  destruct (Z.ltb_spec n 10).
  - repeat constructor. apply digitChar_isDigit. lia.
  - apply Forall_app. split.
    + apply IH. apply Z.div_pos; lia.
    + repeat constructor. apply digitChar_isDigit.
      pose proof (Z.mod_pos_bound n 10). lia.
Qed.

Lemma fmtUint_fuel_value fuel : forall n acc,
  0 <= n < 2 ^ Z.of_nat fuel ->
  digitsValue (fmtUint_fuel fuel n) acc
  = acc * 10 ^ Z.of_nat (length (fmtUint_fuel fuel n)) + n.
Proof.
  induction fuel as [|fuel IH]; intros n acc Hn.
  { cbn. lia. }
  cbn [fmtUint_fuel]. destruct (Z.ltb_spec n 10).
  - cbn. rewrite digitChar_value by lia. lia.
  - unfold digitsValue in *. rewrite fold_left_app. cbn [fold_left].
    rewrite length_app, Nat.add_1_r, Nat2Z.inj_succ, Z.pow_succ_r by lia.
    rewrite IH.
    + pose proof (Z.mod_pos_bound n 10).
      rewrite digitChar_value by lia.
      pose proof (Z.div_mod n 10). lia.
    + rewrite Nat2Z.inj_succ, Z.pow_succ_r in Hn by lia.
      split; [apply Z.div_pos; lia|].
      apply Z.div_lt_upper_bound; lia.
Qed.

Lemma fmtUint_digits n : 0 <= n -> Forall (fun c => isDigit c = true) (fmtUint n).
Proof. apply fmtUint_fuel_digits. Qed.

Lemma fmtUint_value n : 0 <= n -> digitsValue (fmtUint n) 0 = n.
Proof.
  intros Hn. unfold fmtUint. rewrite fmtUint_fuel_value; [lia|].
  split; [done|]. rewrite Nat2Z.inj_succ, Z2Nat.id by apply Z.log2_nonneg.
  destruct (Z.eq_dec n 0) as [->|]; [done|].
  apply Z.log2_spec. lia.
Qed.

Lemma fmtUint_cons n : exists c l, fmtUint n = c :: l.
Proof.
  unfold fmtUint. cbn [fmtUint_fuel]. destruct (n <? 10); [by eexists _, _|].
  destruct (fmtUint_fuel _ _); by eexists _, _.
Qed.

Lemma ParseUint_fmtUint n : 0 <= n <= MaxUint64 -> ParseUint (fmtUint n) = (n, None).
Proof.
  intros Hn. destruct (fmtUint_cons n) as (c & l & Heq).
  unfold ParseUint. rewrite Heq, <- Heq.
  rewrite ParseUint_loop_digits; rewrite ?fmtUint_value; try lia; [done|].
  apply fmtUint_digits. lia.
Qed.

Lemma isDigit_not_sign c :
  isDigit c = true -> Ascii.eqb c "-" = false /\ Ascii.eqb c "+" = false.
Proof.
  intros Hc. split.
  - destruct (Ascii.eqb_spec c "-") as [->|]; [vm_compute in Hc|]; done.
  - destruct (Ascii.eqb_spec c "+") as [->|]; [vm_compute in Hc|]; done.
Qed.

(** what [%d] prints is read back exactly by [ParseInt] *)
Lemma ParseInt_fmtInt z : int64 z -> ParseInt (string_of (fmtInt z)) = (z, None).
Proof.
  unfold int64, MinInt64, MaxInt64. intros Hz.
  unfold ParseInt, fmtInt. rewrite bytes_of_string_of.
  destruct (Z.ltb_spec z 0) as [Hneg|Hpos].
  - cbn [Ascii.eqb Bool.eqb orb]. cbn match.
    rewrite ParseUint_fmtUint by (unfold MaxUint64; lia).
    cbn [negb andb].
    destruct (Z.ltb_spec (2 ^ 63) (- z)); [lia|]. f_equal. lia.
  - destruct (fmtUint_cons z) as (c & l & Heq).
    pose proof (fmtUint_digits z Hpos) as Hd. rewrite Heq in Hd |- *.
    inversion Hd as [|? ? Hc _]; subst.
    destruct (isDigit_not_sign c Hc) as [-> ->]. cbn [orb negb andb].
    rewrite <- Heq, ParseUint_fmtUint by (unfold MaxUint64; lia).
    destruct (Z.leb_spec (2 ^ 63) z); [lia|done].
Qed.

(** *** lines *)

Lemma isDigit_not_LF c : isDigit c = true -> c <> LF.
Proof. intros Hc ->. vm_compute in Hc. done. Qed.

Lemma fmtInt_no_LF z : int64 z -> LF ∉ fmtInt z.
Proof.
  unfold int64, MinInt64, MaxInt64. intros Hz Hin.
  assert (forall n, 0 <= n -> LF ∉ fmtUint n) as Hu.
  { intros n Hn Hin'. pose proof (fmtUint_digits n Hn) as Hd.
    rewrite Forall_forall in Hd. specialize (Hd LF Hin').
    by apply isDigit_not_LF in Hd. }
  unfold fmtInt in Hin. destruct (Z.ltb_spec z 0).
  - apply elem_of_cons in Hin as [Heq|Hin]; [done|]. apply (Hu (- z)); [lia|done].
  - by apply (Hu z).
Qed.

Lemma ReadBytes_found delim l rest :
  delim ∉ l -> ReadBytes delim (l ++ delim :: rest) = (l ++ [delim], None, rest).
Proof.
  induction l as [|c l IH]; intros Hl; cbn [app ReadBytes].
  - by rewrite Ascii.eqb_refl.
  - apply not_elem_of_cons in Hl as [Hne Hl].
    destruct (Ascii.eqb_spec c delim) as [->|_]; [done|]. by rewrite IH.
Qed.

Lemma ReadBytes_eof delim l : delim ∉ l -> ReadBytes delim l = (l, Some EOF, []).
Proof.
  induction l as [|c l IH]; intros Hl; cbn [ReadBytes]; [done|].
  apply not_elem_of_cons in Hl as [Hne Hl].
  destruct (Ascii.eqb_spec c delim) as [->|_]; [done|]. by rewrite IH.
Qed.

Lemma TrimSuffix_CRLF l : TrimSuffix (l ++ CRLF) CRLF = l.
Proof.
  unfold TrimSuffix, HasSuffix, CRLF. rewrite rev_app_distr. cbn.
  rewrite length_app. cbn.
  replace (length l + 2 - 2)%nat with (length l) by lia.
  apply take_app_length.
Qed.

End GoFacts.

(** ** package resp: lines and scalars *)

Lemma readLine_CRLF l rest :
  LF ∉ l -> resp.readLine (l ++ CRLF ++ rest) = (string_of l, None, rest).
Proof.
  intros Hl. unfold resp.readLine.
  replace (l ++ CRLF ++ rest) with ((l ++ [CR]) ++ LF :: rest)
    by (unfold CRLF; by rewrite <- app_assoc).
  rewrite ReadBytes_found.
  - replace ((l ++ [CR]) ++ [LF]) with (l ++ CRLF)
      by (unfold CRLF; by rewrite <- app_assoc).
    by rewrite TrimSuffix_CRLF.
  - intros [Hin|Hin%list_elem_of_singleton]%elem_of_app; done.
Qed.

(** a line cut short by the end of the stream is dropped: the caller gets
    the empty string and [io.EOF] *)
Lemma readLine_eof l : LF ∉ l -> resp.readLine l = (EmptyString, Some EOF, []).
Proof. intros Hl. unfold resp.readLine. by rewrite ReadBytes_eof. Qed.

(** ** [Read] is total: the depth bound is never reached *)

Lemma ReadBytes_length d r : (length (ReadBytes d r).2 <= length r)%nat.
Proof.
  induction r as [|c r IH]; cbn [ReadBytes]; [done|].
  destruct (Ascii.eqb c d); cbn; [lia|].
  destruct (ReadBytes d r) as [[b e] r'']. cbn in *. lia.
Qed.

Lemma readLine_length r : (length (resp.readLine r).2 <= length r)%nat.
Proof.
  unfold resp.readLine. pose proof (ReadBytes_length LF r) as H.
  destruct (ReadBytes LF r) as [[b [e|]] r']; cbn in *; lia.
Qed.

Lemma ReadFull_length r n : (length (ReadFull r n).2 <= length r)%nat.
Proof.
  unfold ReadFull.
  destruct (n <=? 0); [done|]. destruct (Z.of_nat (length r) =? 0); [done|].
  destruct (Z.of_nat (length r) <? n); cbn; [lia|].
  rewrite length_drop. lia.
Qed.

Section ReadTotal.

Lemma readElems_answers rd bound :
  answers rd bound ->
  forall k i r arr, (length r < bound)%nat ->
    exists res, resp.readElems rd k i r arr = Some res /\
      forall a r', res = Ok (a, r') -> (length r' <= length r)%nat.
Proof.
  intros Hrd. induction k as [|k IH]; intros i r arr Hlen; cbn [resp.readElems].
  - eexists. split; [done|]. intros a r' [= <- <-]. lia.
  - destruct (Hrd r Hlen) as (res & -> & Hcons).
    destruct res as [[v r1]|e|m]; [|by eexists..].
    specialize (Hcons v r1 eq_refl).
    destruct (IH (S i) r1 (<[i:=v]> arr)) as (res2 & -> & Hcons2); [lia|].
    eexists. split; [done|]. intros a r' ->.
    specialize (Hcons2 a r' eq_refl). lia.
Qed.

Lemma Read_fuel_answers fuel : answers (resp.Read_fuel fuel) fuel.
Proof.
  induction fuel as [|fuel IH]; intros r Hlen; [lia|].
  destruct r as [|c r]; cbn [resp.Read_fuel ReadByte].
  { eexists. split; [done|]. intros ? ? [=]. }
  cbn [length] in Hlen.
  pose proof (readLine_length r) as Hline.
  destruct (resp.readLine r) as [[line e] r1]. cbn [snd] in Hline.
  destruct (Ascii.eqb c "+").
  { eexists. split; [done|]. intros ? ? [= <- <-]. cbn. lia. }
  destruct (Ascii.eqb c "-").
  { eexists. split; [done|]. intros ? ? [= <- <-]. cbn. lia. }
  destruct (Ascii.eqb c ":").
  { destruct (ParseInt line). eexists. split; [done|].
    intros ? ? [= <- <-]. cbn. lia. }
  destruct (Ascii.eqb c "$").
  { destruct (Atoi line) as [n ?].
    destruct (n =? -1).
    { eexists. split; [done|]. intros ? ? [= <- <-]. cbn. lia. }
    destruct (add64 n 2 <? 0); [by eexists|].
    pose proof (ReadFull_length r1 (add64 n 2)) as Hfull.
    destruct (ReadFull r1 (add64 n 2)) as [[buf [err|]] r2]; [by eexists|].
    destruct (n <? 0); [by eexists|].
    eexists. split; [done|]. intros ? ? [= <- <-]. cbn in *. lia. }
  destruct (Ascii.eqb c "*"); [|by eexists].
  destruct (Atoi line) as [n ?].
  destruct (n <? 0); [by eexists|].
  destruct (readElems_answers _ _ IH (Z.to_nat n) 0%nat r1
              (replicate (Z.to_nat n) resp.Value0)) as (res & -> & Hcons); [lia|].
  destruct res as [[arr r2]|e'|m]; [|by eexists..].
  eexists. split; [done|]. intros ? ? [= <- <-].
  specialize (Hcons arr r2 eq_refl). cbn. lia.
Qed.

End ReadTotal.

Lemma readElems_mono rd rd' :
  (forall r res, rd r = Some res -> rd' r = Some res) ->
  forall k i r arr res,
    resp.readElems rd k i r arr = Some res -> resp.readElems rd' k i r arr = Some res.
Proof.
  intros Hrd. induction k as [|k IH]; intros i r arr res; cbn [resp.readElems]; [done|].
  destruct (rd r) as [res1|] eqn:E; [|done].
  rewrite (Hrd _ _ E). destruct res1 as [[v r1]|e|m]; [|done..]. apply IH.
Qed.

Lemma Read_fuel_S fuel : forall r res,
  resp.Read_fuel fuel r = Some res -> resp.Read_fuel (S fuel) r = Some res.
Proof.
  induction fuel as [|fuel IH]; intros r res H; [done|].
  remember (S fuel) as fuel1 eqn:Ef.
  rewrite Ef in H. destruct r as [|c r]; [done|].
  cbn [resp.Read_fuel ReadByte] in H |- *.
  destruct (resp.readLine r) as [[line e] r1].
  repeat (destruct (Ascii.eqb c _); [exact H|]).
  destruct (Ascii.eqb c "*"); [|exact H].
  destruct (Atoi line) as [n ?]. destruct (n <? 0); [exact H|].
  destruct (resp.readElems (resp.Read_fuel fuel) _ _ _ _) as [res1|] eqn:E; [|done].
  apply (readElems_mono _ (resp.Read_fuel fuel1)) in E; [|by subst fuel1].
  by rewrite E.
Qed.

Lemma Read_fuel_mono fuel fuel' r res :
  (fuel <= fuel')%nat ->
  resp.Read_fuel fuel r = Some res -> resp.Read_fuel fuel' r = Some res.
Proof.
  induction 1 as [|fuel' _ IH]; [done|]. intros H. by apply Read_fuel_S, IH.
Qed.

(** with more fuel than the stream has bytes, [Read_fuel] returns what
    [Read] returns *)
Lemma Read_fuel_enough fuel r :
  (length r < fuel)%nat -> resp.Read_fuel fuel r = Some (resp.Read r).
Proof.
  intros Hlen. unfold resp.Read.
  destruct (Read_fuel_answers (S (length r)) r) as (res & Hres & _); [lia|].
  rewrite Hres. apply (Read_fuel_mono (S (length r))); [lia|done].
Qed.

(** a successful [Read] has consumed at least one byte *)
Lemma Read_consumes r v r' : resp.Read r = Ok (v, r') -> (length r' < length r)%nat.
Proof.
  unfold resp.Read.
  destruct (Read_fuel_answers (S (length r)) r) as (res & -> & Hcons); [lia|].
  apply Hcons.
Qed.

(** ** the scalar cases of [Read], one equation each *)

Lemma Read_of_fuel r res :
  (forall fuel, resp.Read_fuel (S fuel) r = Some res) -> resp.Read r = res.
Proof. intros H. unfold resp.Read. by rewrite H. Qed.

Lemma Read_fuel_simple_line fuel c l rest k :
  (c = "+"%char /\ k = resp.SimpleString) \/ (c = "-"%char /\ k = resp.Error) ->
  LF ∉ l ->
  resp.Read_fuel (S fuel) (c :: l ++ CRLF ++ rest)
  = Some (Ok (resp.mkValue k (string_of l) 0 None [], rest)).
Proof.
  intros Hc Hl. cbn [resp.Read_fuel ReadByte].
  rewrite readLine_CRLF by done.
  by destruct Hc as [[-> ->]|[-> ->]].
Qed.

Lemma Read_fuel_integer fuel i rest :
  int64 i ->
  resp.Read_fuel (S fuel) (":"%char :: fmtInt i ++ CRLF ++ rest)
  = Some (Ok (resp.mkValue resp.Integer "" i None [], rest)).
Proof.
  intros Hi. cbn [resp.Read_fuel ReadByte].
  rewrite readLine_CRLF by by apply fmtInt_no_LF.
  cbn [Ascii.eqb Bool.eqb]. cbn match. by rewrite ParseInt_fmtInt.
Qed.

Lemma ReadFull_app l rest :
  ReadFull (l ++ rest) (Z.of_nat (length l)) = (l, None, rest).
Proof.
  unfold ReadFull. destruct l as [|c l]; [done|].
  destruct (Z.leb_spec (Z.of_nat (length (c :: l))) 0) as [H|_]; [cbn in H; lia|].
  destruct (Z.eqb_spec (Z.of_nat (length ((c :: l) ++ rest))) 0) as [H|_];
    [cbn in H; lia|].
  destruct (Z.ltb_spec (Z.of_nat (length ((c :: l) ++ rest)))
              (Z.of_nat (length (c :: l)))) as [H|_].
  { rewrite length_app in H. lia. }
  rewrite Nat2Z.id. by rewrite take_app_length, drop_app_length.
Qed.

Lemma Read_fuel_null_bulk fuel rest :
  resp.Read_fuel (S fuel) (bytes_of "$-1" ++ CRLF ++ rest)
  = Some (Ok (resp.mkValue resp.BulkString "" 0 None [], rest)).
Proof. reflexivity. Qed.

(** a Go slice never has [MaxInt64 - 1] elements or more; the bound keeps
    [n+2] from wrapping *)
Lemma Read_fuel_bulk fuel b rest :
  Z.of_nat (length b) + 2 <= MaxInt64 ->
  resp.Read_fuel (S fuel)
    ("$"%char :: fmtInt (Z.of_nat (length b)) ++ CRLF ++ b ++ CRLF ++ rest)
  = Some (Ok (resp.mkValue resp.BulkString "" 0 (Some b) [], rest)).
Proof.
  unfold MaxInt64. intros Hlen. cbn [resp.Read_fuel ReadByte].
  assert (int64 (Z.of_nat (length b))) as Hn by (unfold int64, MinInt64, MaxInt64; lia).
  rewrite readLine_CRLF by by apply fmtInt_no_LF.
  cbn [Ascii.eqb Bool.eqb]. cbn match. unfold Atoi. rewrite ParseInt_fmtInt by done.
  destruct (Z.eqb_spec (Z.of_nat (length b)) (-1)) as [H|_]; [lia|].
  unfold add64. rewrite wrap64_id by (unfold int64, MinInt64, MaxInt64; lia).
  destruct (Z.ltb_spec (Z.of_nat (length b) + 2) 0) as [H|_]; [lia|].
  replace (b ++ CRLF ++ rest) with ((b ++ CRLF) ++ rest) by by rewrite <- app_assoc.
  replace (Z.of_nat (length b) + 2) with (Z.of_nat (length (b ++ CRLF)))
    by (rewrite length_app; cbn; lia).
  rewrite ReadFull_app.
  destruct (Z.ltb_spec (Z.of_nat (length b)) 0) as [H|_]; [lia|].
  by rewrite Nat2Z.id, take_app_length.
Qed.

Lemma Read_fuel_truncated_line fuel c l :
  c = "+"%char \/ c = "-"%char \/ c = ":"%char -> LF ∉ l ->
  resp.Read_fuel (S fuel) (c :: l)
  = Some (Ok (resp.mkValue
                (if Ascii.eqb c "+" then resp.SimpleString
                 else if Ascii.eqb c "-" then resp.Error else resp.Integer)
                "" 0 None [], [])).
Proof.
  intros Hc Hl. cbn [resp.Read_fuel ReadByte]. rewrite readLine_eof by done.
  by destruct Hc as [-> | [-> | ->]].
Qed.

(** a bulk string whose length line is cut short does fail: the two bytes
    of the terminator cannot be read *)
Lemma Read_truncated_bulk_length l : LF ∉ l -> resp.Read ("$"%char :: l) = Err EOF.
Proof.
  intros Hl. apply Read_of_fuel. intros fuel.
  cbn [resp.Read_fuel ReadByte]. by rewrite readLine_eof.
Qed.

(* ===================================================================== *)
(** * The codec                                                           *)
(* ===================================================================== *)

(** C1.  The claim is that no byte sequence sent on a connection can end
    the server process.  A negative array count (and a bulk length below
    -1) makes [Read] panic, in [make] or when slicing; [handleConn] runs
    [Read] without recovering, so whatever the connection had written and
    whatever follows on the stream, the process stops.  A count line that
    is not a number is read as 0 and is harmless. *)
Theorem Read_negative_count_panics :
  resp.Read (bytes_of "*-1" ++ CRLF) = Panic "makeslice: len out of range" /\
  resp.Read (bytes_of "$-3" ++ CRLF) = Panic "makeslice: len out of range" /\
  resp.Read (bytes_of "$-2" ++ CRLF) = Panic "slice bounds out of range" /\
  (forall clock w st rest,
     handleConn clock w st (bytes_of "*-1" ++ CRLF ++ rest)
     = Panic "makeslice: len out of range") /\
  resp.Read (bytes_of "*abc" ++ CRLF) = Ok (resp.mkValue resp.Array "" 0 None [], []).
Proof.
  repeat split; try reflexivity.
Qed.

(** C2.  The claim is that a stream ending inside a unit makes [Read] fail
    with the I/O error.  For the three line kinds it does not: the error of
    [readLine] is dropped, and a stream that ends anywhere before the line
    feed yields a Value with an empty string (or the integer 0) and no
    error.  (For a bulk length line the decode does fail, see
    [Read_truncated_bulk_length].) *)
Theorem Read_truncated_line_fabricates l :
  LF ∉ l ->
  resp.Read ("+"%char :: l) = Ok (resp.mkValue resp.SimpleString "" 0 None [], []) /\
  resp.Read ("-"%char :: l) = Ok (resp.mkValue resp.Error "" 0 None [], []) /\
  resp.Read (":"%char :: l) = Ok (resp.mkValue resp.Integer "" 0 None [], []).
Proof.
  intros Hl. repeat split; apply Read_of_fuel; intros fuel;
    rewrite Read_fuel_truncated_line; auto.
Qed.

Lemma Read_truncated_line_fabricates_witness :
  (LF ∉ bytes_of "OK") /\
  resp.Read (bytes_of "+OK") = Ok (resp.mkValue resp.SimpleString "" 0 None [], []) /\
  resp.Read (bytes_of "-OK") = Ok (resp.mkValue resp.Error "" 0 None [], []) /\
  resp.Read (bytes_of ":OK") = Ok (resp.mkValue resp.Integer "" 0 None [], []).
Proof.
  assert (LF ∉ bytes_of "OK") as H.
  { intros Hin. repeat (apply elem_of_cons in Hin as [Hin|Hin]; [discriminate Hin|]).
    by apply elem_of_nil in Hin. }
  split; [exact H|]. exact (Read_truncated_line_fabricates (bytes_of "OK") H).
Defined.

(** C4, as the claim states it, fails on a simple string that holds a line
    feed: the reader stops at the first line feed, so the string comes back
    cut and the rest of it stays on the stream. *)
Lemma Read_Write_simple_string_LF_counterexample :
  let s := string_of ["a"%char; LF; "b"%char] in
  exists v rest,
    resp.Read (resp.WriteSimpleString [] s) = Ok (v, rest) /\
    resp.S v = string_of ["a"%char; LF] /\ resp.S v <> s /\ rest = "b"%char :: CRLF.
Proof. cbn zeta. eexists _, _. by repeat split. Qed.

(** C4, amended.  Decoding what the writer produced gives the value back,
    and leaves the stream right after it, for every simple string and error
    string without a line feed, every int64, the null bulk and every bulk
    string (of a length a Go slice can have). *)
Theorem Read_Write_scalar_roundtrip :
  (forall s rest, LF ∉ bytes_of s ->
     resp.Read (resp.WriteSimpleString [] s ++ rest)
     = Ok (resp.mkValue resp.SimpleString s 0 None [], rest)) /\
  (forall s rest, LF ∉ bytes_of s ->
     resp.Read (resp.WriteError [] s ++ rest)
     = Ok (resp.mkValue resp.Error s 0 None [], rest)) /\
  (forall i rest, int64 i ->
     resp.Read (resp.WriteInteger [] i ++ rest)
     = Ok (resp.mkValue resp.Integer "" i None [], rest)) /\
  (forall rest,
     resp.Read (resp.WriteBulk [] None ++ rest)
     = Ok (resp.mkValue resp.BulkString "" 0 None [], rest)) /\
  (forall b rest, Z.of_nat (length b) + 2 <= MaxInt64 ->
     resp.Read (resp.WriteBulk [] (Some b) ++ rest)
     = Ok (resp.mkValue resp.BulkString "" 0 (Some b) [], rest)).
Proof.
  split; [|split; [|split; [|split]]].
  - intros s rest Hs. apply Read_of_fuel. intros fuel.
    unfold resp.WriteSimpleString. cbn [app]. rewrite <- !app_assoc.
    rewrite Read_fuel_simple_line with (k := resp.SimpleString); auto.
    by rewrite string_of_bytes_of.
  - intros s rest Hs. apply Read_of_fuel. intros fuel.
    unfold resp.WriteError. cbn [app]. rewrite <- !app_assoc.
    rewrite Read_fuel_simple_line with (k := resp.Error); auto.
    by rewrite string_of_bytes_of.
  - intros i rest Hi. apply Read_of_fuel. intros fuel.
    unfold resp.WriteInteger. cbn [app]. rewrite <- !app_assoc.
    by apply Read_fuel_integer.
  - intros rest. apply Read_of_fuel. intros fuel.
    unfold resp.WriteBulk. cbn [app]. rewrite <- !app_assoc.
    apply Read_fuel_null_bulk.
  - intros b rest Hb. apply Read_of_fuel. intros fuel.
    unfold resp.WriteBulk. cbn [app]. rewrite <- !app_assoc.
    by apply Read_fuel_bulk.
Qed.

Lemma Read_Write_scalar_roundtrip_witness :
  resp.Read (resp.WriteSimpleString [] "OK" ++ bytes_of "+next")
  = Ok (resp.mkValue resp.SimpleString "OK" 0 None [], bytes_of "+next") /\
  resp.Read (resp.WriteError [] "ERR protocol error" ++ [])
  = Ok (resp.mkValue resp.Error "ERR protocol error" 0 None [], []) /\
  resp.Read (resp.WriteInteger [] (-2) ++ [])
  = Ok (resp.mkValue resp.Integer "" (-2) None [], []) /\
  resp.Read (resp.WriteBulk [] (Some (bytes_of "bar")) ++ [])
  = Ok (resp.mkValue resp.BulkString "" 0 (Some (bytes_of "bar")) [], []).
Proof.
  destruct Read_Write_scalar_roundtrip as (Hs & He & Hi & _ & Hb).
  assert (forall s, forallb (fun c => negb (Ascii.eqb c LF)) s = true -> LF ∉ s) as Hno.
  { intros s Hall Hin. rewrite forallb_forall in Hall.
    apply list_elem_of_In, Hall in Hin. by rewrite Ascii.eqb_refl in Hin. }
  split; [|split; [|split]].
  - apply Hs. by apply Hno.
  - apply He. by apply Hno.
  - apply Hi. unfold int64, MinInt64, MaxInt64. lia.
  - apply Hb. unfold MaxInt64. cbn. lia.
Defined.

(* ===================================================================== *)
(** * The connection loop                                                 *)
(* ===================================================================== *)

Lemma handleConn_step_consumes w st r now w' st' r' :
  handleConn_step w st r now = Continue w' st' r' -> (length r' < length r)%nat.
Proof.
  unfold handleConn_step. destruct (resp.Read r) as [[v r1]|e|m] eqn:E; [|done..].
  apply Read_consumes in E.
  destruct (_ || _); [|destruct (dispatch w st v now)]; intros [= _ _ <-]; done.
Qed.

(** the loop ends: one turn more than the stream has bytes is enough *)
Lemma handleConn_fuel_enough fuel : forall clock i w st r,
  (length r < fuel)%nat ->
  exists res, handleConn_fuel fuel clock i w st r = Some res.
Proof.
  induction fuel as [|fuel IH]; intros clock i w st r Hlen; [lia|].
  cbn [handleConn_fuel].
  destruct (handleConn_step w st r (clock i)) as [w' st' r'| |] eqn:E; [|by eexists..].
  apply handleConn_step_consumes in E. apply IH. lia.
Qed.

(** C3, as the claim states it, fails: an unknown prefix byte is a decode
    failure like any other.  Here a well-formed PING waits on the stream
    behind the offending line; the loop returns at once, nothing is sent,
    and the PING is never answered. *)
Lemma handleConn_unknown_prefix_counterexample :
  let r := bytes_of "?" ++ CRLF ++
           bytes_of "*1" ++ CRLF ++ bytes_of "$4" ++ CRLF ++ bytes_of "PING" ++ CRLF in
  resp.Read r = Err (errors_New "unknown RESP prefix") /\
  handleConn_step [] (mkStore ∅) r 0 = Return [] (mkStore ∅) /\
  (forall w' st' r', handleConn_step [] (mkStore ∅) r 0 <> Continue w' st' r') /\
  handleConn (fun _ => 0) [] (mkStore ∅) r = Ok ([], mkStore ∅).
Proof. cbn zeta. repeat split. intros w' st' r'. discriminate. Qed.

(** C3, amended.  Every failure of the decode, an unknown prefix byte as
    much as the end of the stream, makes the loop return with nothing
    written and the store untouched.  The error reply that keeps the
    connection open is the one for a request that was decoded but is not a
    non-empty array. *)
Theorem handleConn_step_decode_failure w st r now :
  (forall e, resp.Read r = Err e -> handleConn_step w st r now = Return w st) /\
  (forall v r', resp.Read r = Ok (v, r') ->
     resp.T v <> resp.Array \/ resp.A v = [] ->
     handleConn_step w st r now
     = Continue (resp.WriteError w "ERR protocol error") st r').
Proof.
  unfold handleConn_step. split.
  - by intros e ->.
  - intros v r' -> Hv.
    destruct Hv as [Hk | ->].
    + by rewrite bool_decide_eq_false_2.
    + by rewrite orb_true_r.
Qed.

Lemma handleConn_step_decode_failure_witness :
  handleConn_step [] (mkStore ∅) (bytes_of "?PING") 0 = Return [] (mkStore ∅) /\
  handleConn_step [] (mkStore ∅) [] 0 = Return [] (mkStore ∅) /\
  handleConn_step [] (mkStore ∅) (bytes_of "+PING" ++ CRLF) 0
  = Continue (resp.WriteError [] "ERR protocol error") (mkStore ∅) [].
Proof.
  split; [|split].
  - apply (proj1 (handleConn_step_decode_failure [] (mkStore ∅) (bytes_of "?PING") 0)
             (errors_New "unknown RESP prefix")).
    reflexivity.
  - apply (proj1 (handleConn_step_decode_failure [] (mkStore ∅) [] 0) EOF).
    reflexivity.
  - apply (proj2 (handleConn_step_decode_failure [] (mkStore ∅)
                    (bytes_of "+PING" ++ CRLF) 0)
             (resp.mkValue resp.SimpleString "PING" 0 None [])).
    + reflexivity.
    + left. discriminate.
Defined.

(* ===================================================================== *)
(** * The store                                                           *)
(* ===================================================================== *)

Lemma wrap64_spec z : exists q, wrap64 z = z - q * 2 ^ 64 /\ int64 (wrap64 z).
Proof.
  exists ((z + 2 ^ 63) / 2 ^ 64). split; [|apply wrap64_int64].
  unfold wrap64. pose proof (Z.div_mod (z + 2 ^ 63) (2 ^ 64)). lia.
Qed.

Lemma get_lookup st key now :
  get st key now
  = match data st !! key with
    | Some e => if (0 <? exp e) && (exp e <? now) then None else Some e
    | None => None
    end.
Proof. reflexivity. Qed.

Lemma expired_true e now : (0 <? exp e) && (exp e <? now) = true <-> 0 < exp e < now.
Proof. rewrite andb_true_iff, !Z.ltb_lt. done. Qed.

Lemma handleGet_two w st c kv now :
  handleGet w st [c; kv] now
  = resp.WriteBulk w (get st (string_of_slice (resp.B kv)) now ≫= val).
Proof. unfold handleGet. cbn. by destruct (get _ _ _). Qed.

Lemma handleSet_three w st c kv vv now :
  handleSet w st [c; kv; vv] now
  = (resp.WriteSimpleString w "OK",
     set st (string_of_slice (resp.B kv)) (resp.B vv) 0 now).
Proof. reflexivity. Qed.

(** ** The janitor *)

Lemma Store_eq (s s' : Store) :
  (forall k, data s !! k = data s' !! k) -> s = s'.
Proof. destruct s, s'. cbn. intros H. f_equal. by apply map_eq. Qed.

Lemma janitor_scan_lookup entries now : forall m k,
  janitor_scan entries now m !! k
  = if existsb (fun ke => bool_decide (ke.1 = k)
                          && ((0 <? exp ke.2) && (exp ke.2 <? now))) entries
    then None else m !! k.
Proof.
  unfold janitor_scan.
  induction entries as [|[k0 e0] entries IH]; intros m k; cbn [fold_left existsb]; [done|].
  rewrite IH. cbn [fst snd].
  destruct (existsb _ entries); [by rewrite orb_true_r|]. rewrite orb_false_r.
  destruct ((0 <? exp e0) && (exp e0 <? now)).
  - rewrite andb_true_r. case_bool_decide as Hk.
    + subst. apply lookup_delete_eq.
    + by apply lookup_delete_ne.
  - by rewrite andb_false_r.
Qed.

(** after one tick the map holds exactly what [get] reports at the time of
    the scan *)
Lemma janitor_tick_in_lookup entries st now k :
  entries ≡ₚ map_to_list (data st) ->
  data (janitor_tick_in entries st now) !! k = get st k now.
Proof.
  intros Hperm. unfold janitor_tick_in. cbn [data].
  rewrite janitor_scan_lookup, get_lookup.
  destruct (existsb _ entries) eqn:E.
  - apply existsb_exists in E as ([k0 e0] & Hin & Hc).
    apply list_elem_of_In in Hin. rewrite Hperm in Hin.
    apply elem_of_map_to_list in Hin.
    apply andb_true_iff in Hc as [Hk%bool_decide_eq_true Hexp]. cbn in Hk, Hexp.
    subst k0. by rewrite Hin, Hexp.
  - destruct (data st !! k) as [e|] eqn:Hl; [|done].
    destruct ((0 <? exp e) && (exp e <? now)) eqn:Hexp; [|done].
    assert (existsb (fun ke => bool_decide (ke.1 = k)
                      && ((0 <? exp ke.2) && (exp ke.2 <? now))) entries = true) as E'.
    { apply existsb_exists. exists (k, e). split.
      - apply list_elem_of_In. rewrite Hperm. by apply elem_of_map_to_list.
      - cbn. by rewrite bool_decide_eq_true_2, Hexp. }
    congruence.
Qed.

(** C9, as the claim states it, fails for an entry whose expiry is
    negative.  SET k v PX 9223372036854775807 at time 1000 stores the
    wrapped sum, a negative number; the tick at time 2000 keeps the entry,
    whose expiry is not zero and lies in the past. *)
Lemma janitor_tick_negative_expiry_counterexample :
  let b s := bulk (Some (bytes_of s)) in
  let st := (handleSet [] (mkStore ∅)
               [b "SET"; b "k"; b "v"; b "PX"; b "9223372036854775807"]
               1000).2 in
  exists e,
    data st !! "k"%string = Some e /\ exp e <> 0 /\ exp e < 2000 /\
    data (janitor_tick st 2000) !! "k"%string = Some e.
Proof.
  cbn zeta. eexists. split; [vm_compute; reflexivity|].
  split; [done|]. split; [done|]. vm_compute. reflexivity.
Qed.

(** C9, amended.  One tick, in whatever order the entries are visited,
    removes exactly the entries whose expiry is positive and lies strictly
    before the time of the scan; every other entry stays as it was and
    nothing is added; what remains has an expiry that is not positive or
    not in the past. *)
Theorem janitor_tick_removes_expired st now entries :
  entries ≡ₚ map_to_list (data st) ->
  let st' := janitor_tick_in entries st now in
  (forall k e, data st !! k = Some e -> 0 < exp e < now -> data st' !! k = None) /\
  (forall k e, data st !! k = Some e -> ~ (0 < exp e < now) -> data st' !! k = Some e) /\
  (forall k, data st !! k = None -> data st' !! k = None) /\
  (forall k e, data st' !! k = Some e -> exp e <= 0 \/ now <= exp e) /\
  st' = janitor_tick st now.
Proof.
  intros Hperm st'. subst st'.
  assert (forall k, data (janitor_tick_in entries st now) !! k
                    = match data st !! k with
                      | Some e => if (0 <? exp e) && (exp e <? now) then None else Some e
                      | None => None
                      end) as Hl.
  { intros k. by rewrite janitor_tick_in_lookup, get_lookup. }
  split; [|split; [|split; [|split]]].
  - intros k e He Hexp. rewrite Hl, He.
    by rewrite (proj2 (expired_true e now) Hexp).
  - intros k e He Hexp. rewrite Hl, He.
    destruct ((0 <? exp e) && (exp e <? now)) eqn:E; [|done].
    by apply expired_true in E.
  - intros k He. by rewrite Hl, He.
  - intros k e. rewrite Hl. destruct (data st !! k) as [e'|]; [|done].
    destruct ((0 <? exp e') && (exp e' <? now)) eqn:E; [done|].
    intros [= ->]. apply andb_false_iff in E as [E|E].
    + left. by apply Z.ltb_ge.
    + right. by apply Z.ltb_ge.
  - apply Store_eq. intros k. unfold janitor_tick.
    by rewrite !janitor_tick_in_lookup.
Qed.

Lemma janitor_tick_removes_expired_witness :
  let st := mkStore (<["a"%string := mkEntry (Some []) 500]>
                       (<["b"%string := mkEntry (Some []) 0]> ∅)) in
  data (janitor_tick_in (map_to_list (data st)) st 1000) !! "a"%string = None /\
  data (janitor_tick_in (map_to_list (data st)) st 1000) !! "b"%string
  = Some (mkEntry (Some []) 0).
Proof.
  intros st.
  destruct (janitor_tick_removes_expired st 1000 (map_to_list (data st)))
    as (Hgone & Hkept & _); [reflexivity|].
  split.
  - apply (Hgone "a"%string (mkEntry (Some []) 500)); [vm_compute; reflexivity|cbn; lia].
  - apply (Hkept "b"%string (mkEntry (Some []) 0)); [vm_compute; reflexivity|cbn; lia].
Defined.

(** ** Lazy expiry on read *)

(** C6, as the claim states it, fails for an entry whose expiry is
    negative: it is not zero and it lies in the past, yet [get] returns the
    entry and GET replies its value.  The state is the one SET k v PX
    9223372036854775807 leaves at time 1000. *)
Lemma get_negative_expiry_counterexample :
  let b s := bulk (Some (bytes_of s)) in
  let st := (handleSet [] (mkStore ∅)
               [b "SET"; b "k"; b "v"; b "PX"; b "9223372036854775807"]
               1000).2 in
  exists e,
    data st !! "k"%string = Some e /\ exp e <> 0 /\ exp e < 2000 /\
    get st "k" 2000 = Some e /\
    handleGet [] st [b "GET"; b "k"] 2000 = resp.WriteBulk [] (Some (bytes_of "v")) /\
    handleGet [] st [b "GET"; b "k"] 2000 <> resp.WriteBulk [] None.
Proof.
  cbn zeta. eexists. split; [vm_compute; reflexivity|].
  split; [done|]. split; [done|]. split; [vm_compute; reflexivity|].
  split; [vm_compute; reflexivity|]. vm_compute. discriminate.
Qed.

(** C6, amended.  [get] is a function of the map, the key and the time,
    and returns no map: it cannot change the mapping.  An entry whose
    expiry is positive and strictly in the past is reported as absent, and
    GET replies the null bulk, as for a key that is not in the map; any
    other entry is returned as stored.  A tick of the janitor at an earlier
    (or the same) time changes none of these answers. *)
Theorem get_lazy_expiry w st c kv now :
  let key := string_of_slice (resp.B kv) in
  (data st !! key = None ->
   get st key now = None /\
   handleGet w st [c; kv] now = w ++ bytes_of "$-1" ++ CRLF) /\
  (forall e, data st !! key = Some e -> 0 < exp e < now ->
   get st key now = None /\
   handleGet w st [c; kv] now = w ++ bytes_of "$-1" ++ CRLF) /\
  (forall e, data st !! key = Some e -> ~ (0 < exp e < now) ->
   get st key now = Some e /\
   handleGet w st [c; kv] now = resp.WriteBulk w (val e)) /\
  (forall t entries, t <= now -> entries ≡ₚ map_to_list (data st) ->
   get (janitor_tick_in entries st t) key now = get st key now /\
   handleGet w (janitor_tick_in entries st t) [c; kv] now = handleGet w st [c; kv] now).
Proof.
  intros key. subst key. split; [|split; [|split]].
  - intros Hl. rewrite handleGet_two, get_lookup, Hl. done.
  - intros e Hl Hexp. rewrite handleGet_two, get_lookup, Hl.
    by rewrite (proj2 (expired_true e now) Hexp).
  - intros e Hl Hexp. rewrite handleGet_two, get_lookup, Hl.
    destruct ((0 <? exp e) && (exp e <? now)) eqn:E; [|done].
    by apply expired_true in E.
  - intros t entries Ht Hperm.
    assert (get (janitor_tick_in entries st t) (string_of_slice (resp.B kv)) now
            = get st (string_of_slice (resp.B kv)) now) as Hget.
    { rewrite (get_lookup (janitor_tick_in entries st t)).
      rewrite janitor_tick_in_lookup by done. rewrite !get_lookup.
      destruct (data st !! string_of_slice (resp.B kv)) as [e|]; [|done].
      destruct ((0 <? exp e) && (exp e <? t)) eqn:E; [|done].
      apply expired_true in E.
      rewrite (proj2 (expired_true e now)); [done|lia]. }
    split; [done|]. by rewrite !handleGet_two, Hget.
Qed.

Lemma get_lazy_expiry_witness :
  let b s := bulk (Some (bytes_of s)) in
  let st := set (mkStore ∅) "foo" (Some (bytes_of "bar")) 1000 5 in
  handleGet [] st [b "GET"; b "nil"] 2000 = bytes_of "$-1" ++ CRLF /\
  handleGet [] st [b "GET"; b "foo"] 2000 = bytes_of "$-1" ++ CRLF /\
  handleGet [] st [b "GET"; b "foo"] 1005 = resp.WriteBulk [] (Some (bytes_of "bar")) /\
  get (janitor_tick_in (map_to_list (data st)) st 1500) "foo" 2000 = get st "foo" 2000.
Proof.
  intros b st.
  destruct (get_lazy_expiry [] st (b "GET"%string) (b "nil"%string) 2000)
    as (Habsent & _).
  destruct (get_lazy_expiry [] st (b "GET"%string) (b "foo"%string) 2000)
    as (_ & Hexpired & _ & Hswept).
  destruct (get_lazy_expiry [] st (b "GET"%string) (b "foo"%string) 1005)
    as (_ & _ & Hlive & _).
  split; [apply Habsent; vm_compute; reflexivity|].
  split; [apply (Hexpired (mkEntry (Some (bytes_of "bar")) 1005));
          [vm_compute; reflexivity|cbn; lia]|].
  split; [apply (Hlive (mkEntry (Some (bytes_of "bar")) 1005));
          [vm_compute; reflexivity|cbn; lia]|].
  apply (Hswept 1500 (map_to_list (data st))); [lia|reflexivity].
Defined.

(** ** DEL *)

Lemma del_loop_lookup keys : forall m n k,
  (del_loop m keys n).1 !! k = if decide (k ∈ keys) then None else m !! k.
Proof.
  induction keys as [|k0 keys IH]; intros m n k; cbn [del_loop].
  - by rewrite decide_False by apply not_elem_of_nil.
  - destruct (m !! k0) as [e0|] eqn:E0; rewrite IH.
    + destruct (decide (k ∈ keys)) as [Hin|Hnin].
      * by rewrite decide_True by by apply elem_of_cons; right.
      * destruct (decide (k = k0)) as [->|Hne].
        -- rewrite decide_True by by apply elem_of_cons; left.
           apply lookup_delete_eq.
        -- rewrite decide_False by (by intros [?|?]%elem_of_cons).
           by apply lookup_delete_ne.
    + destruct (decide (k ∈ keys)) as [Hin|Hnin].
      * by rewrite decide_True by by apply elem_of_cons; right.
      * destruct (decide (k = k0)) as [->|Hne].
        -- by rewrite decide_True by by apply elem_of_cons; left.
        -- by rewrite decide_False by (by intros [?|?]%elem_of_cons).
Qed.

Lemma del_loop_count keys : forall m n,
  (del_loop m keys n).2
  = n + Z.of_nat (size m) - Z.of_nat (size (del_loop m keys n).1).
Proof.
  induction keys as [|k0 keys IH]; intros m n; cbn [del_loop].
  - cbn. lia.
  - destruct (m !! k0) as [e0|] eqn:E0; rewrite IH; [|done].
    assert (size m = S (size (delete k0 m))) as ->; [|lia].
    rewrite <- (insert_delete_id m k0 e0) at 1 by done.
    apply map_size_insert_None, lookup_delete_eq.
Qed.

Lemma del_fst st keys : data (del st keys).1 = (del_loop (data st) keys 0).1.
Proof. unfold del. by destruct (del_loop _ _ _). Qed.

Lemma del_snd st keys : (del st keys).2 = (del_loop (data st) keys 0).2.
Proof. unfold del. by destruct (del_loop _ _ _). Qed.

Lemma handleDel_cons w st c args :
  args <> [] ->
  handleDel w st (c :: args)
  = (resp.WriteInteger w (del st (map (fun a => string_of_slice (resp.B a)) args)).2,
     (del st (map (fun a => string_of_slice (resp.B a)) args)).1).
Proof.
  intros Hne. unfold handleDel. destruct args as [|a args]; [done|].
  cbn [length Nat.ltb Nat.leb drop]. by destruct (del st _).
Qed.

(** C8.  [del] never looks at the clock or at the expiry of an entry.  It
    removes the keys of the list that are in the map and no other; it
    returns the number of entries removed, which is the number of distinct
    keys of the list that were in the map; and DEL replies that number. *)
Theorem del_removes_present_keys st keys :
  let st' := (del st keys).1 in
  let n := (del st keys).2 in
  (forall k, k ∈ keys -> data st' !! k = None) /\
  (forall k, k ∉ keys -> data st' !! k = data st !! k) /\
  n = Z.of_nat (size (data st)) - Z.of_nat (size (data st')) /\
  n = Z.of_nat (size (dom (data st) ∩ list_to_set keys : gset string)) /\
  (forall a b e, keys = [a; b] -> data st !! a = Some e -> data st !! b = None ->
     n = 1) /\
  ((forall k, k ∈ keys -> data st !! k = None) -> n = 0 /\ st' = st) /\
  (forall k e now, keys = [k] -> data st !! k = Some e -> 0 < exp e < now ->
     get st k now = None /\ n = 1 /\ data st' !! k = None) /\
  (forall w c args, args <> [] ->
     keys = map (fun a => string_of_slice (resp.B a)) args ->
     handleDel w st (c :: args) = (resp.WriteInteger w n, st')).
Proof.
  intros st' n. subst st' n.
  assert (forall k, data (del st keys).1 !! k
                    = if decide (k ∈ keys) then None else data st !! k) as Hl.
  { intros k. by rewrite del_fst, del_loop_lookup. }
  assert ((del st keys).2
          = Z.of_nat (size (data st)) - Z.of_nat (size (data (del st keys).1))) as Hn.
  { rewrite del_snd, del_fst, del_loop_count. lia. }
  assert (dom (data (del st keys).1) = dom (data st) ∖ list_to_set keys) as Hdom.
  { apply set_eq. intros k.
    rewrite elem_of_difference, !elem_of_dom, elem_of_list_to_set, Hl.
    destruct (decide (k ∈ keys)); [|naive_solver].
    split; [by intros [? ?]|naive_solver]. }
  assert ((del st keys).2
          = Z.of_nat (size (dom (data st) ∩ list_to_set keys : gset string))) as Hn'.
  { rewrite Hn, <- !(size_dom (D := gset string)), Hdom, size_difference_alt.
    assert (size (dom (data st) ∩ list_to_set keys : gset string)
            <= size (dom (data st) : gset string))%nat
      by (apply subseteq_size; set_solver).
    lia. }
  split; [|split; [|split; [|split; [|split; [|split; [|split]]]]]]; try done.
  - intros k Hk. by rewrite Hl, decide_True.
  - intros k Hk. by rewrite Hl, decide_False.
  - intros a b e -> Ha Hb. rewrite del_snd. cbn [del_loop]. rewrite Ha.
    assert (delete a (data st) !! b = None) as ->; [|done].
    destruct (decide (a = b)) as [->|Hne];
      [apply lookup_delete_eq|by rewrite lookup_delete_ne].
  - intros Hnone.
    assert ((del st keys).1 = st) as Heq.
    { apply Store_eq. intros k. rewrite Hl.
      destruct (decide (k ∈ keys)); [by rewrite Hnone|done]. }
    split; [|done]. rewrite Hn, Heq. lia.
  - intros k e now -> He Hexp. split; [|split].
    + by rewrite get_lookup, He, (proj2 (expired_true e now) Hexp).
    + rewrite del_snd. cbn [del_loop]. by rewrite He.
    + rewrite Hl, decide_True; [done|]. by apply list_elem_of_singleton.
  - intros w c args Hne ->. by apply handleDel_cons.
Qed.

Lemma del_removes_present_keys_witness :
  let st := set (mkStore ∅) "a" (Some (bytes_of "x")) 1000 5 in
  let b s := bulk (Some (bytes_of s)) in
  data (del st ["a"; "b"]%string).1 !! "a"%string = None /\
  data (del st ["a"; "b"]%string).1 !! "c"%string = data st !! "c"%string /\
  (del st ["a"; "b"]%string).2 = 1 /\
  ((del st ["b"; "c"]%string).2 = 0 /\ (del st ["b"; "c"]%string).1 = st) /\
  (get st "a" 2000 = None /\ (del st ["a"%string]).2 = 1 /\
   data (del st ["a"%string]).1 !! "a"%string = None) /\
  handleDel [] st [b "DEL"; b "a"; b "b"]
  = (resp.WriteInteger [] (del st ["a"; "b"]%string).2, (del st ["a"; "b"]%string).1).
Proof.
  intros st b.
  destruct (del_removes_present_keys st ["a"; "b"]%string)
    as (Hin & Hout & _ & _ & Hab & _ & _ & Hreply).
  destruct (del_removes_present_keys st ["b"; "c"]%string)
    as (_ & _ & _ & _ & _ & Hnone & _).
  destruct (del_removes_present_keys st ["a"%string])
    as (_ & _ & _ & _ & _ & _ & Hexpired & _).
  split; [apply Hin, elem_of_cons; by left|].
  split; [apply Hout, not_elem_of_cons; split;
          [discriminate|apply not_elem_of_cons; split;
                          [discriminate|apply not_elem_of_nil]]|].
  split; [apply (Hab "a" "b" (mkEntry (Some (bytes_of "x")) 1005))%string;
          vm_compute; reflexivity|].
  split; [apply Hnone; intros k Hk;
          apply elem_of_cons in Hk as [->|Hk];
          [|apply elem_of_cons in Hk as [->|Hk]; [|by apply elem_of_nil in Hk]];
          vm_compute; reflexivity|].
  split; [apply (Hexpired "a"%string (mkEntry (Some (bytes_of "x")) 1005) 2000);
          [reflexivity|vm_compute; reflexivity|cbn; lia]|].
  apply (Hreply [] (b "DEL"%string) [b "a"%string; b "b"%string]);
    [discriminate|reflexivity].
Defined.

(** ** TTL *)



(** the integer that TTL replies *)
Lemma handleTTL_two w st c kv now :
  handleTTL w st [c; kv] now
  = resp.WriteInteger w
      match data st !! string_of_slice (resp.B kv) with
      | None => -2
      | Some e =>
          if exp e =? 0 then -1
          else if sub64 (exp e) now <? 0 then -2
          else div64 (sub64 (exp e) now) 1000
      end.
Proof.
  unfold handleTTL. cbn [length Nat.eqb negb index nth].
  destruct (data st !! _) as [e|]; [|done].
  destruct (exp e =? 0); [done|]. by destruct (sub64 (exp e) now <? 0).
Qed.





(* ===================================================================== *)
(** * Requests on the wire                                                *)
(* ===================================================================== *)

Lemma Read_of_some_fuel fuel r res :
  resp.Read_fuel fuel r = Some res -> resp.Read r = res.
Proof.
  intros H.
  apply (Read_fuel_mono fuel (fuel `max` S (length r))) in H; [|lia].
  rewrite Read_fuel_enough in H by lia. by injection H.
Qed.

Lemma WriteBulk_app w b : resp.WriteBulk w b = w ++ resp.WriteBulk [] b.
Proof. destruct b; cbn; [|done]. by rewrite <- app_assoc. Qed.

Lemma WriteArray_elems_bulk args : forall w,
  resp.WriteArray_elems w (map bulk args)
  = (w ++ concat (map (resp.WriteBulk []) args), None).
Proof.
  induction args as [|a args IH]; intros w; cbn [map resp.WriteArray_elems concat].
  - by rewrite app_nil_r.
  - cbn [bulk resp.T resp.B]. rewrite IH, (WriteBulk_app w a). by rewrite <- app_assoc.
Qed.

Lemma command_bytes args :
  command args
  = "*"%char :: fmtInt (Z.of_nat (length args)) ++ CRLF
    ++ concat (map (resp.WriteBulk []) args).
Proof.
  unfold command, resp.WriteArray. rewrite WriteArray_elems_bulk, length_map.
  cbn [fst app]. by rewrite <- app_assoc.
Qed.

Lemma Read_fuel_bulk_any fuel b rest :
  bulk_ok b ->
  resp.Read_fuel (S fuel) (resp.WriteBulk [] b ++ rest) = Some (Ok (bulk b, rest)).
Proof.
  intros Hb. destruct b as [l|].
  - unfold resp.WriteBulk. cbn [app]. rewrite <- !app_assoc.
    by apply Read_fuel_bulk, Hb.
  - apply Read_fuel_null_bulk.
Qed.

Lemma readElems_bulks fuel args : forall i arr rest,
  Forall bulk_ok args -> length arr = (i + length args)%nat ->
  resp.readElems (resp.Read_fuel (S fuel)) (length args) i
    (concat (map (resp.WriteBulk []) args) ++ rest) arr
  = Some (Ok (take i arr ++ map bulk args, rest)).
Proof.
  induction args as [|a args IH]; intros i arr rest Hok Hlen.
  - cbn in *. rewrite app_nil_r, take_ge by lia. done.
  - inversion Hok as [|? ? Ha Hargs]; subst.
    cbn [length map concat resp.readElems]. rewrite <- app_assoc.
    rewrite Read_fuel_bulk_any by done.
    cbn [length] in Hlen.
    rewrite IH; [|done|rewrite length_insert; lia].
    rewrite (take_S_r _ _ (bulk a)) by (apply list_lookup_insert_eq; lia).
    rewrite take_insert_ge by lia. by rewrite <- app_assoc.
Qed.

(** a request written as an array of bulk strings is decoded to that array *)
Lemma Read_command args rest :
  Forall bulk_ok args -> Z.of_nat (length args) <= MaxInt64 ->
  resp.Read (command args ++ rest)
  = Ok (resp.mkValue resp.Array "" 0 None (map bulk args), rest).
Proof.
  intros Hok Hlen. apply (Read_of_some_fuel 2). rewrite command_bytes.
  remember 1%nat as fuel1 eqn:Ef.
  cbn [app resp.Read_fuel ReadByte]. rewrite <- !app_assoc.
  assert (int64 (Z.of_nat (length args))) as Hn
    by (unfold int64, MinInt64, MaxInt64 in *; lia).
  rewrite readLine_CRLF by by apply fmtInt_no_LF.
  cbn [Ascii.eqb Bool.eqb]. cbn match. unfold Atoi. rewrite ParseInt_fmtInt by done.
  destruct (Z.ltb_spec (Z.of_nat (length args)) 0) as [H|_]; [lia|].
  rewrite Ef, Nat2Z.id, readElems_bulks; [done..|].
  by rewrite length_replicate.
Qed.

(** the loop, given a request that is a non-empty array of bulk strings,
    dispatches it and goes on with the rest of the stream *)
Lemma handleConn_step_command w st args rest now :
  Forall bulk_ok args -> args <> [] -> Z.of_nat (length args) <= MaxInt64 ->
  handleConn_step w st (command args ++ rest) now
  = Continue (dispatch w st (resp.mkValue resp.Array "" 0 None (map bulk args)) now).1
      (dispatch w st (resp.mkValue resp.Array "" 0 None (map bulk args)) now).2 rest.
Proof.
  intros Hok Hne Hlen. unfold handleConn_step. rewrite Read_command by done.
  cbn [resp.T resp.A]. rewrite bool_decide_eq_true_2 by done.
  destruct args as [|a args]; [done|]. cbn [map length Nat.eqb negb orb].
  by destruct (dispatch _ _ _ _).
Qed.

(** the arguments of a request are bulk strings of an admissible length *)
Ltac bulk_ok_tac :=
  repeat first
    [ assumption
    | apply Forall_cons_2
    | apply Forall_nil_2
    | (intros ? [= <-]; unfold MaxInt64; cbn; lia)
    | (intros ? [=]) ].

(** the command name selects the handler *)
Ltac dispatch_tac :=
  unfold dispatch; cbn [resp.A index nth bulk resp.B string_of_slice];
  vm_compute (ToUpper _); cbn [String.eqb Ascii.eqb Bool.eqb]; reflexivity.

Lemma dispatch_GET w st a now :
  dispatch w st (resp.mkValue resp.Array "" 0 None [bulk (Some (bytes_of "GET")); a]) now
  = (handleGet w st [bulk (Some (bytes_of "GET")); a] now, st).
Proof. dispatch_tac. Qed.

Lemma dispatch_SET w st a b now :
  dispatch w st
    (resp.mkValue resp.Array "" 0 None [bulk (Some (bytes_of "SET")); a; b]) now
  = handleSet w st [bulk (Some (bytes_of "SET")); a; b] now.
Proof. dispatch_tac. Qed.

(* ===================================================================== *)
(** * SET and GET                                                         *)
(* ===================================================================== *)

(** C5.  SET k v without options, then GET k: the reply to SET is +OK, and
    the reply to GET, at whatever later time and whatever was stored under
    k before, is the bulk string v (in particular for the empty sequence
    and for bytes such as CR and LF).  [set] stores the entry with expiry
    [now + ttl] (the int64 sum, equal to the mathematical one when it does
    not overflow) when [ttl > 0] and 0 otherwise, whatever the key held
    before, and touches no other key.  On the wire: the connection loop,
    given the request SET k v as an array of bulk strings, replies +OK and
    goes on; given GET k afterwards it replies v as a bulk string. *)
Theorem SET_then_GET_returns_value :
  (forall w st c kv vv now w' c' now',
     let key := string_of_slice (resp.B kv) in
     let w1 := (handleSet w st [c; kv; vv] now).1 in
     let st1 := (handleSet w st [c; kv; vv] now).2 in
     w1 = resp.WriteSimpleString w "OK" /\
     data st1 !! key = Some (mkEntry (resp.B vv) 0) /\
     get st1 key now' = Some (mkEntry (resp.B vv) 0) /\
     handleGet w' st1 [c'; kv] now' = resp.WriteBulk w' (resp.B vv)) /\
  (forall s key v ttlMs now,
     (0 < ttlMs ->
      data (set s key v ttlMs now) !! key = Some (mkEntry v (add64 now ttlMs))) /\
     (ttlMs <= 0 -> data (set s key v ttlMs now) !! key = Some (mkEntry v 0)) /\
     (forall k', k' <> key -> data (set s key v ttlMs now) !! k' = data s !! k') /\
     (int64 (now + ttlMs) -> add64 now ttlMs = now + ttlMs)) /\
  (forall w st k v rest now,
     bulk_ok (Some k) -> bulk_ok (Some v) ->
     let st1 := set st (string_of k) (Some v) 0 now in
     handleConn_step w st
       (command [Some (bytes_of "SET"); Some k; Some v] ++ rest) now
     = Continue (w ++ bytes_of "+OK" ++ CRLF) st1 rest /\
     forall w' rest' now',
       handleConn_step w' st1 (command [Some (bytes_of "GET"); Some k] ++ rest') now'
       = Continue (w' ++ "$"%char :: fmtInt (Z.of_nat (length v)) ++ CRLF ++ v ++ CRLF)
           st1 rest').
Proof.
  split; [|split].
  - intros w st c kv vv now w' c' now' key w1 st1.
    subst w1 st1 key. rewrite handleSet_three. cbn [fst snd].
    assert (data (set st (string_of_slice (resp.B kv)) (resp.B vv) 0 now)
              !! string_of_slice (resp.B kv)
            = Some (mkEntry (resp.B vv) 0)) as Hl by apply lookup_insert_eq.
    split; [done|]. split; [exact Hl|]. split.
    + by rewrite get_lookup, Hl.
    + by rewrite handleGet_two, get_lookup, Hl.
  - intros s key v ttlMs now. unfold set. cbn [data]. repeat split.
    + intros Ht. destruct (Z.ltb_spec 0 ttlMs); [|lia]. apply lookup_insert_eq.
    + intros Ht. destruct (Z.ltb_spec 0 ttlMs); [lia|]. apply lookup_insert_eq.
    + intros k' Hk. by apply lookup_insert_ne.
    + apply wrap64_id.
  - intros w st k v rest now Hk Hv st1. split.
    + rewrite handleConn_step_command; [|bulk_ok_tac|done|unfold MaxInt64; cbn; lia].
      cbn [map]. by rewrite dispatch_SET, handleSet_three.
    + intros w' rest' now'.
      rewrite handleConn_step_command; [|bulk_ok_tac|done|unfold MaxInt64; cbn; lia].
      cbn [map]. rewrite dispatch_GET, handleGet_two. subst st1. cbn [bulk resp.B].
      rewrite get_lookup. unfold string_of_slice, set. cbn [data].
      rewrite lookup_insert_eq.
      cbn [exp val Z.ltb Z.compare andb mbind option_bind fst snd].
      unfold resp.WriteBulk. rewrite <- !app_assoc. cbn [app].
      by rewrite <- ?app_assoc.
Qed.

Lemma SET_then_GET_returns_value_witness :
  handleGet [] (handleSet [] (mkStore ∅)
                  [resp.Value0; resp.mkValue resp.BulkString "" 0 (Some (bytes_of "foo")) [];
                   resp.mkValue resp.BulkString "" 0 (Some [CR; LF]) []] 1000).2
    [resp.Value0; resp.mkValue resp.BulkString "" 0 (Some (bytes_of "foo")) []] 2000
  = resp.WriteBulk [] (Some [CR; LF]) /\
  data (set (mkStore ∅) "foo" (Some []) 1000 5) !! "foo"
  = Some (mkEntry (Some []) (add64 5 1000)) /\
  data (set (mkStore ∅) "foo" (Some []) (-1) 5) !! "foo" = Some (mkEntry (Some []) 0) /\
  data (set (mkStore ∅) "foo" (Some []) 1000 5) !! "bar" = (∅ : gmap string Entry) !! "bar" /\
  add64 5 1000 = 5 + 1000 /\
  handleConn_step [] (mkStore ∅)
    (command [Some (bytes_of "SET"); Some (bytes_of "foo"); Some []] ++ []) 7
  = Continue ([] ++ bytes_of "+OK" ++ CRLF) (set (mkStore ∅) "foo" (Some []) 0 7) [].
Proof.
  destruct SET_then_GET_returns_value as (Hsg & Hset & Hwire).
  split; [apply Hsg|].
  destruct (Hset (mkStore ∅) "foo"%string (Some []) 1000 5) as (Hpos & _ & Hother & Hsum).
  destruct (Hset (mkStore ∅) "foo"%string (Some []) (-1) 5) as (_ & Hneg & _).
  split; [apply Hpos; lia|]. split; [apply Hneg; lia|].
  split; [apply Hother; discriminate|].
  split; [apply Hsum; unfold int64, MinInt64, MaxInt64; lia|].
  apply (Hwire [] (mkStore ∅) (bytes_of "foo") [] [] 7);
    intros l [= <-]; unfold MaxInt64; cbn; lia.
Defined.

(** C10.  SET k with the null bulk as value: the entry is in the map with a
    nil payload and no expiry; GET k replies the null bulk, the very reply
    it gives when k is not in the map; DEL k replies 1 and TTL k replies
    -1, so the key is there.  The null bulk [$-1] is what [Read] decodes to
    a bulk value with a nil payload, and the same holds for the requests
    taken from the wire by the connection loop. *)
Theorem SET_null_bulk_then_GET :
  forall w st c kv now w' c' now' rest,
    let null := resp.mkValue resp.BulkString "" 0 None [] in
    let key := string_of_slice (resp.B kv) in
    let st1 := (handleSet w st [c; kv; null] now).2 in
    resp.Read (bytes_of "$-1" ++ CRLF ++ rest) = Ok (null, rest) /\
    data st1 !! key = Some (mkEntry None 0) /\
    handleGet w' st1 [c'; kv] now' = w' ++ bytes_of "$-1" ++ CRLF /\
    handleGet w' st1 [c'; kv] now'
    = handleGet w' (mkStore (delete key (data st))) [c'; kv] now' /\
    (handleDel w' st1 [c'; kv]).1 = resp.WriteInteger w' 1 /\
    handleTTL w' st1 [c'; kv] now' = resp.WriteInteger w' (-1) /\
    (forall k rest', resp.B kv = Some k -> bulk_ok (Some k) ->
       handleConn_step w st
         (command [Some (bytes_of "SET"); Some k; None] ++ rest) now
       = Continue (w ++ bytes_of "+OK" ++ CRLF) st1 rest /\
       handleConn_step w' st1 (command [Some (bytes_of "GET"); Some k] ++ rest') now'
       = Continue (w' ++ bytes_of "$-1" ++ CRLF) st1 rest' /\
       handleConn_step w' (mkStore (delete key (data st)))
         (command [Some (bytes_of "GET"); Some k] ++ rest') now'
       = Continue (w' ++ bytes_of "$-1" ++ CRLF) (mkStore (delete key (data st))) rest').
Proof.
  intros w st c kv now w' c' now' rest null key st1.
  subst st1 key. rewrite handleSet_three. cbn [snd].
  assert (data (set st (string_of_slice (resp.B kv)) (resp.B null) 0 now)
            !! string_of_slice (resp.B kv)
          = Some (mkEntry None 0)) as Hl by apply lookup_insert_eq.
  split; [done|]. split; [exact Hl|]. split; [|split; [|split; [|split]]].
  - by rewrite handleGet_two, get_lookup, Hl.
  - rewrite !handleGet_two, !get_lookup, Hl. cbn [data].
    by rewrite lookup_delete_eq.
  - unfold handleDel, del. cbn [length Nat.ltb Nat.leb drop map del_loop].
    by rewrite Hl.
  - unfold handleTTL. cbn [length Nat.eqb negb index nth]. by rewrite Hl.
  - intros k rest' Hkv Hk. rewrite Hkv in Hl |- *. cbn [string_of_slice] in Hl |- *.
    assert (Forall bulk_ok [Some (bytes_of "GET"); Some k]) as Hget
      by bulk_ok_tac.
    split; [|split].
    + rewrite handleConn_step_command; [|bulk_ok_tac|done|unfold MaxInt64; cbn; lia].
      cbn [map]. by rewrite dispatch_SET, handleSet_three.
    + rewrite handleConn_step_command; [|done..|unfold MaxInt64; cbn; lia].
      cbn [map]. rewrite dispatch_GET, handleGet_two, get_lookup.
      cbn [bulk resp.B string_of_slice]. by rewrite Hl.
    + rewrite handleConn_step_command; [|done..|unfold MaxInt64; cbn; lia].
      cbn [map]. rewrite dispatch_GET, handleGet_two, get_lookup.
      cbn [bulk resp.B string_of_slice data]. by rewrite lookup_delete_eq.
Qed.


(* ===================================================================== *)
(** * A session                                                           *)
(* ===================================================================== *)

(** the scenario of the specification, run through the whole loop: PING,
    PING hello, SET foo bar, GET foo, DEL foo missing, TTL missing, and
    then the client closes the connection *)
Example handleConn_session :
  let b s := Some (bytes_of s) in
  handleConn (fun i => 1000 + Z.of_nat i) [] (mkStore ∅)
    (command [b "PING"] ++ command [b "PING"; b "hello"] ++
     command [b "SET"; b "foo"; b "bar"] ++ command [b "GET"; b "foo"] ++
     command [b "DEL"; b "foo"; b "missing"] ++ command [b "TTL"; b "missing"])
  = Ok (bytes_of "+PONG" ++ CRLF ++
        bytes_of "$5" ++ CRLF ++ bytes_of "hello" ++ CRLF ++
        bytes_of "+OK" ++ CRLF ++
        bytes_of "$3" ++ CRLF ++ bytes_of "bar" ++ CRLF ++
        bytes_of ":1" ++ CRLF ++ bytes_of ":-2" ++ CRLF,
        mkStore ∅).
Proof. vm_compute. reflexivity. Qed.

(** the expiry that SET k v PX 9223372036854775807 stores at time 1000 is
    the wrapped sum, a negative number; one second later TTL still replies
    the seconds left of the requested time, because the difference wraps
    back *)
Remark handleTTL_wrapped_expiry :
  let b s := bulk (Some (bytes_of s)) in
  let st := (handleSet [] (mkStore ∅)
               [b "SET"; b "k"; b "v"; b "PX"; b "9223372036854775807"] 1000).2 in
  (exp <$> data st !! "k"%string) = Some (-9223372036854774809) /\
  handleTTL [] st [b "TTL"; b "k"] 2000 = resp.WriteInteger [] 9223372036854774.
Proof. cbn zeta. split; vm_compute; reflexivity. Qed.

Lemma SET_null_bulk_then_GET_witness :
  let k := bytes_of "k" in
  let st1 := (handleSet [] (mkStore ∅) [bulk None; bulk (Some k); bulk None] 1000).2 in
  handleConn_step [] (mkStore ∅)
    (command [Some (bytes_of "SET"); Some k; None] ++ []) 1000
  = Continue ([] ++ bytes_of "+OK" ++ CRLF) st1 [] /\
  handleConn_step [] st1 (command [Some (bytes_of "GET"); Some k] ++ []) 2000
  = Continue ([] ++ bytes_of "$-1" ++ CRLF) st1 [] /\
  handleConn_step [] (mkStore (delete "k"%string (data (mkStore ∅))))
    (command [Some (bytes_of "GET"); Some k] ++ []) 2000
  = Continue ([] ++ bytes_of "$-1" ++ CRLF)
      (mkStore (delete "k"%string (data (mkStore ∅)))) [].
Proof.
  intros k st1.
  destruct (SET_null_bulk_then_GET [] (mkStore ∅) (bulk None) (bulk (Some k))
              1000 [] (bulk None) 2000 [])
    as (_ & _ & _ & _ & _ & _ & Hwire).
  apply (Hwire k []); [reflexivity|].
  intros l [= <-]. unfold MaxInt64. cbn. lia.
Defined.

(* ===================================================================== *)
(** * Further properties of the codec                                     *)
(* ===================================================================== *)

Lemma ParseUint_loop_overflow l : forall acc,
  Forall (fun c => isDigit c = true) l -> 0 <= acc <= MaxUint64 ->
  MaxUint64 < digitsValue l acc ->
  ParseUint_loop l acc = (MaxUint64, Some ErrRange).
Proof.
  induction l as [|c l IH]; intros acc Hl Hacc Hover; cbn in *; [lia|].
  inversion Hl as [|? ? Hc Hl']; subst. rewrite Hc.
  pose proof (isDigit_value c Hc) as Hd.
  destruct (Z.leb_spec (MaxUint64 / 10 + 1) acc); [done|].
  destruct (Z.ltb_spec MaxUint64 (acc * 10 + (byteZ c - 48))); [done|].
  apply IH; [done|lia|done].
Qed.

Lemma ParseUint_fmtUint_big n :
  MaxUint64 < n -> ParseUint (fmtUint n) = (MaxUint64, Some ErrRange).
Proof.
  intros Hn. destruct (fmtUint_cons n) as (c & l & Heq).
  unfold ParseUint. rewrite Heq, <- Heq.
  apply ParseUint_loop_overflow.
  - apply fmtUint_digits. unfold MaxUint64 in Hn. lia.
  - unfold MaxUint64. lia.
  - rewrite fmtUint_value; [done|]. unfold MaxUint64 in Hn. lia.
Qed.

(** the value [ParseInt] returns for the decimal form of any integer: the
    integer itself, cut to the int64 range *)
Lemma ParseInt_fmtInt_clamp z :
  (ParseInt (string_of (fmtInt z))).1 = Z.max MinInt64 (Z.min MaxInt64 z).
Proof.
  unfold MinInt64, MaxInt64.
  destruct (Z_le_gt_dec (- 2 ^ 63) z) as [Hlo|Hlo];
    [destruct (Z_le_gt_dec z (2 ^ 63 - 1)) as [Hhi|Hhi]|].
  - rewrite ParseInt_fmtInt by (unfold int64, MinInt64, MaxInt64; lia). cbn [fst]. lia.
  - unfold ParseInt, fmtInt. rewrite bytes_of_string_of.
    destruct (Z.ltb_spec z 0); [lia|].
    destruct (fmtUint_cons z) as (c & l & Heq).
    assert (0 <= z) as Hpos by lia.
    pose proof (fmtUint_digits z Hpos) as Hd. rewrite Heq in Hd |- *.
    inversion Hd as [|? ? Hc _]; subst.
    destruct (isDigit_not_sign c Hc) as [-> ->]. cbn [orb negb andb].
    rewrite <- Heq.
    destruct (Z_le_gt_dec z MaxUint64) as [Hu|Hu].
    + rewrite ParseUint_fmtUint by lia.
      destruct (Z.leb_spec (2 ^ 63) z); [cbn [fst]; lia|lia].
    + rewrite ParseUint_fmtUint_big by lia. unfold MaxUint64.
      destruct (Z.leb_spec (2 ^ 63) (2 ^ 64 - 1)); [cbn [fst]; lia|lia].
  - unfold ParseInt, fmtInt. rewrite bytes_of_string_of.
    destruct (Z.ltb_spec z 0); [|lia].
    cbn [Ascii.eqb Bool.eqb orb]. cbn match.
    destruct (Z_le_gt_dec (- z) MaxUint64) as [Hu|Hu].
    + rewrite ParseUint_fmtUint by lia. cbn [negb andb].
      destruct (Z.ltb_spec (2 ^ 63) (- z)); [cbn [fst]; lia|lia].
    + rewrite ParseUint_fmtUint_big by lia. unfold MaxUint64. cbn [negb andb].
      destruct (Z.ltb_spec (2 ^ 63) (2 ^ 64 - 1)); [cbn [fst]; lia|lia].
Qed.

Lemma fmtInt_no_LF_any z : LF ∉ fmtInt z.
Proof.
  intros Hin.
  assert (forall n, 0 <= n -> LF ∉ fmtUint n) as Hu.
  { intros n Hn Hin'. pose proof (fmtUint_digits n Hn) as Hd.
    rewrite Forall_forall in Hd. specialize (Hd LF Hin').
    by apply isDigit_not_LF in Hd. }
  unfold fmtInt in Hin. destruct (Z.ltb_spec z 0).
  - apply elem_of_cons in Hin as [Heq|Hin]; [done|]. apply (Hu (- z)); [lia|done].
  - by apply (Hu z).
Qed.

(** X1.  An integer line is never rejected.  The decimal form of any
    integer, however large, decodes to that integer cut to the int64
    range; a line that starts with a byte that is neither a digit nor a
    sign decodes to 0. *)
Theorem Read_integer_saturates :
  (forall z rest,
     resp.Read (":"%char :: fmtInt z ++ CRLF ++ rest)
     = Ok (resp.mkValue resp.Integer "" (Z.max MinInt64 (Z.min MaxInt64 z)) None [],
           rest)) /\
  (forall c l rest,
     isDigit c = false -> c <> "+"%char -> c <> "-"%char -> LF ∉ c :: l ->
     resp.Read (":"%char :: (c :: l) ++ CRLF ++ rest)
     = Ok (resp.mkValue resp.Integer "" 0 None [], rest)).
Proof.
  split.
  - intros z rest. apply Read_of_fuel. intros fuel.
    cbn [resp.Read_fuel ReadByte].
    rewrite readLine_CRLF by apply fmtInt_no_LF_any.
    cbn [Ascii.eqb Bool.eqb]. cbn match.
    pose proof (ParseInt_fmtInt_clamp z) as Hc.
    destruct (ParseInt (string_of (fmtInt z))) as [n e]. cbn [fst] in Hc. by subst n.
  - intros c l rest Hd Hplus Hminus Hl. apply Read_of_fuel. intros fuel.
    cbn [resp.Read_fuel ReadByte].
    rewrite readLine_CRLF by done.
    cbn [Ascii.eqb Bool.eqb]. cbn match.
    unfold ParseInt. rewrite bytes_of_string_of.
    destruct (Ascii.eqb_spec c "-"); [done|]. destruct (Ascii.eqb_spec c "+"); [done|].
    cbn [orb ParseUint ParseUint_loop]. by rewrite Hd.
Qed.

Lemma Read_integer_saturates_witness :
  resp.Read (bytes_of ":99999999999999999999" ++ CRLF)
  = Ok (resp.mkValue resp.Integer "" MaxInt64 None [], []) /\
  resp.Read (bytes_of ":x12" ++ CRLF)
  = Ok (resp.mkValue resp.Integer "" 0 None [], []).
Proof.
  destruct Read_integer_saturates as [Hsat Hzero]. split.
  - exact (Hsat 99999999999999999999 []).
  - apply (Hzero "x"%char (bytes_of "12") []); try done.
    intros Hin. repeat (apply elem_of_cons in Hin as [Hin|Hin]; [discriminate Hin|]).
    by apply elem_of_nil in Hin.
Defined.

Lemma readLine_count n rest :
  int64 n ->
  resp.readLine (fmtInt n ++ CRLF ++ rest) = (string_of (fmtInt n), None, rest)
  /\ Atoi (string_of (fmtInt n)) = (n, None).
Proof.
  intros Hn. split; [apply readLine_CRLF, fmtInt_no_LF_any|].
  unfold Atoi. by apply ParseInt_fmtInt.
Qed.

(** X2.  Every negative array count, every bulk length below -1 and the two
    largest bulk lengths make [Read] panic, whatever follows on the stream;
    the connection loop does not recover, so its turn ends in a crash. *)
Theorem Read_bad_length_panics n rest :
  int64 n ->
  (n < 0 ->
   resp.Read ("*"%char :: fmtInt n ++ CRLF ++ rest) = Panic "makeslice: len out of range"
   /\ forall w st now,
        handleConn_step w st ("*"%char :: fmtInt n ++ CRLF ++ rest) now
        = Crash "makeslice: len out of range") /\
  (n < -2 \/ MaxInt64 - 2 < n ->
   resp.Read ("$"%char :: fmtInt n ++ CRLF ++ rest) = Panic "makeslice: len out of range") /\
  (n = -2 ->
   resp.Read ("$"%char :: fmtInt n ++ CRLF ++ rest) = Panic "slice bounds out of range").
Proof.
  intros Hn. destruct (readLine_count n rest Hn) as [Hline Hatoi].
  assert (n < 0 ->
          resp.Read ("*"%char :: fmtInt n ++ CRLF ++ rest)
          = Panic "makeslice: len out of range") as Harr.
  { intros Hneg. apply Read_of_fuel. intros fuel.
    cbn [resp.Read_fuel ReadByte]. rewrite Hline.
    cbn [Ascii.eqb Bool.eqb]. cbn match. rewrite Hatoi.
    by destruct (Z.ltb_spec n 0); [|lia]. }
  split; [|split].
  - intros Hneg. split; [by apply Harr|].
    intros w st now. unfold handleConn_step. by rewrite Harr.
  - intros Hbad. apply Read_of_fuel. intros fuel.
    cbn [resp.Read_fuel ReadByte]. rewrite Hline.
    cbn [Ascii.eqb Bool.eqb]. cbn match. rewrite Hatoi.
    destruct (Z.eqb_spec n (-1)); [unfold MaxInt64 in Hbad; lia|].
    assert (add64 n 2 < 0) as Hlen.
    { unfold add64. destruct (wrap64_spec (n + 2)) as (q & Hq & Hr).
      unfold int64, MinInt64, MaxInt64 in *. lia. }
    by destruct (Z.ltb_spec (add64 n 2) 0); [|lia].
  - intros ->. apply Read_of_fuel. intros fuel.
    cbn [resp.Read_fuel ReadByte]. rewrite Hline.
    cbn [Ascii.eqb Bool.eqb]. cbn match. by rewrite Hatoi.
Qed.

Lemma Read_bad_length_panics_witness :
  resp.Read (bytes_of "*-7" ++ CRLF ++ bytes_of "+OK" ++ CRLF)
  = Panic "makeslice: len out of range" /\
  resp.Read (bytes_of "$9223372036854775806" ++ CRLF ++ bytes_of "x")
  = Panic "makeslice: len out of range" /\
  resp.Read (bytes_of "$-2" ++ CRLF) = Panic "slice bounds out of range".
Proof.
  assert (int64 (-7) /\ int64 9223372036854775806 /\ int64 (-2)) as (H1 & H2 & H3)
    by (unfold int64, MinInt64, MaxInt64; lia).
  split; [|split].
  - apply (Read_bad_length_panics (-7) (bytes_of "+OK" ++ CRLF) H1). lia.
  - apply (Read_bad_length_panics 9223372036854775806 (bytes_of "x") H2).
    right. unfold MaxInt64. lia.
  - by apply (Read_bad_length_panics (-2) [] H3).
Defined.

(** X3.  The two bytes after the payload of a bulk string are consumed but
    not looked at: whatever they are, the payload is returned and the
    stream continues after them. *)
Theorem Read_bulk_terminator_unchecked b x y rest :
  Z.of_nat (length b) + 2 <= MaxInt64 ->
  resp.Read ("$"%char :: fmtInt (Z.of_nat (length b)) ++ CRLF ++ b ++ [x; y] ++ rest)
  = Ok (bulk (Some b), rest).
Proof.
  unfold MaxInt64. intros Hlen.
  assert (int64 (Z.of_nat (length b))) as Hn
    by (unfold int64, MinInt64, MaxInt64; lia).
  destruct (readLine_count _ (b ++ [x; y] ++ rest) Hn) as [Hline Hatoi].
  apply Read_of_fuel. intros fuel.
  cbn [resp.Read_fuel ReadByte]. rewrite Hline.
  cbn [Ascii.eqb Bool.eqb]. cbn match. rewrite Hatoi.
  destruct (Z.eqb_spec (Z.of_nat (length b)) (-1)) as [H|_]; [lia|].
  unfold add64. rewrite wrap64_id by (unfold int64, MinInt64, MaxInt64; lia).
  destruct (Z.ltb_spec (Z.of_nat (length b) + 2) 0) as [H|_]; [lia|].
  replace (b ++ [x; y] ++ rest) with ((b ++ [x; y]) ++ rest) by by rewrite <- app_assoc.
  replace (Z.of_nat (length b) + 2) with (Z.of_nat (length (b ++ [x; y])))
    by (rewrite length_app; cbn; lia).
  rewrite ReadFull_app.
  destruct (Z.ltb_spec (Z.of_nat (length b)) 0) as [H|_]; [lia|].
  by rewrite Nat2Z.id, take_app_length.
Qed.

Lemma Read_bulk_terminator_unchecked_witness :
  resp.Read (bytes_of "$3" ++ CRLF ++ bytes_of "barXY+OK")
  = Ok (bulk (Some (bytes_of "bar")), bytes_of "+OK").
Proof.
  apply (Read_bulk_terminator_unchecked (bytes_of "bar") "X" "Y" (bytes_of "+OK")).
  unfold MaxInt64. cbn. lia.
Defined.

(** X4.  A bulk string whose payload or terminator is cut short by the end
    of the stream is a decode failure, when [make] returns the buffer of
    the declared length and the two bytes of the terminator: [io.EOF] when
    nothing follows the length line, [io.ErrUnexpectedEOF] when some bytes
    do.  (When [make] does not return, for a declared length beyond what
    the allocator accepts or has, the program stops before it reads.) *)
Theorem Read_bulk_truncated avail n payload :
  0 <= n -> makeslice_ok avail 1 (n + 2) -> Z.of_nat (length payload) < n + 2 ->
  resp.Read ("$"%char :: fmtInt n ++ CRLF ++ payload)
  = Err (match payload with [] => EOF | _ => ErrUnexpectedEOF end).
Proof.
  unfold makeslice_ok, maxAlloc. intros Hpos (_ & Hmem & Hmax) Hshort.
  assert (int64 n) as Hn by (unfold int64, MinInt64, MaxInt64; lia).
  destruct (readLine_count n payload Hn) as [Hline Hatoi].
  apply Read_of_fuel. intros fuel.
  cbn [resp.Read_fuel ReadByte]. rewrite Hline.
  cbn [Ascii.eqb Bool.eqb]. cbn match. rewrite Hatoi.
  destruct (Z.eqb_spec n (-1)) as [H|_]; [lia|].
  unfold add64. rewrite wrap64_id by (unfold int64, MinInt64, MaxInt64; lia).
  destruct (Z.ltb_spec (n + 2) 0) as [H|_]; [lia|].
  unfold ReadFull.
  destruct (Z.leb_spec (n + 2) 0) as [H|_]; [lia|].
  destruct payload as [|c payload]; [done|].
  destruct (Z.eqb_spec (Z.of_nat (length (c :: payload))) 0) as [H|_]; [cbn in H; lia|].
  by destruct (Z.ltb_spec (Z.of_nat (length (c :: payload))) (n + 2)); [|lia].
Qed.

Lemma Read_bulk_truncated_witness :
  resp.Read (bytes_of "$5" ++ CRLF ++ bytes_of "hello" ++ [CR]) = Err ErrUnexpectedEOF /\
  resp.Read (bytes_of "$5" ++ CRLF) = Err EOF.
Proof.
  split.
  - apply (Read_bulk_truncated 4096 5 (bytes_of "hello" ++ [CR]));
      unfold makeslice_ok, maxAlloc; cbn; lia.
  - apply (Read_bulk_truncated 4096 5 []); unfold makeslice_ok, maxAlloc; cbn; lia.
Defined.

(** ** What a successful decode leaves on the stream *)

Lemma ReadBytes_suffix d r : (ReadBytes d r).2 `suffix_of` r.
Proof.
  induction r as [|c r IH]; cbn [ReadBytes]; [done|].
  destruct (Ascii.eqb c d); cbn [snd]; [by apply suffix_cons_r|].
  destruct (ReadBytes d r) as [[b e] r'']. cbn [snd] in *. by apply suffix_cons_r.
Qed.

Lemma readLine_suffix r : (resp.readLine r).2 `suffix_of` r.
Proof.
  unfold resp.readLine. pose proof (ReadBytes_suffix LF r) as H.
  by destruct (ReadBytes LF r) as [[b [e|]] r'].
Qed.

Lemma ReadFull_suffix r n : (ReadFull r n).2 `suffix_of` r.
Proof.
  unfold ReadFull.
  destruct (n <=? 0); [done|]. destruct (Z.of_nat (length r) =? 0); [done|].
  destruct (Z.of_nat (length r) <? n); cbn [snd]; [apply suffix_nil|].
  apply suffix_drop.
Qed.

Lemma readElems_suffix rd :
  (forall r v r', rd r = Some (Ok (v, r')) -> r' `suffix_of` r) ->
  forall k i r arr a r',
    resp.readElems rd k i r arr = Some (Ok (a, r')) -> r' `suffix_of` r.
Proof.
  intros Hrd. induction k as [|k IH]; intros i r arr a r'; cbn [resp.readElems].
  - by intros [= _ <-].
  - destruct (rd r) as [[[v r1]|e|m]|] eqn:E; [|done..].
    intros H. etrans; [by eapply IH|by eapply Hrd].
Qed.

Lemma Read_fuel_suffix fuel : forall r v r',
  resp.Read_fuel fuel r = Some (Ok (v, r')) -> r' `suffix_of` r.
Proof.
  induction fuel as [|fuel IH]; intros r v r'; [done|].
  destruct r as [|c r]; cbn [resp.Read_fuel ReadByte]; [done|].
  pose proof (readLine_suffix r) as Hline.
  destruct (resp.readLine r) as [[line e] r1]. cbn [snd] in Hline.
  assert (r1 `suffix_of` c :: r) as Hr1 by by apply suffix_cons_r.
  destruct (Ascii.eqb c "+"); [by intros [= _ <-]|].
  destruct (Ascii.eqb c "-"); [by intros [= _ <-]|].
  destruct (Ascii.eqb c ":"); [destruct (ParseInt line); by intros [= _ <-]|].
  destruct (Ascii.eqb c "$").
  { destruct (Atoi line) as [n ?]. destruct (n =? -1); [by intros [= _ <-]|].
    destruct (add64 n 2 <? 0); [done|].
    pose proof (ReadFull_suffix r1 (add64 n 2)) as Hfull.
    destruct (ReadFull r1 (add64 n 2)) as [[buf [err|]] r2]; [done|].
    destruct (n <? 0); [done|]. intros [= _ <-]. cbn [snd] in Hfull. by etrans. }
  destruct (Ascii.eqb c "*"); [|done].
  destruct (Atoi line) as [n ?]. destruct (n <? 0); [done|].
  destruct (resp.readElems _ _ _ _ _) as [[[arr r2]|e'|m]|] eqn:E; [|done..].
  intros [= _ <-]. apply (readElems_suffix _ IH) in E. by etrans.
Qed.

(** X5.  A successful decode takes a non-empty run of bytes from the front
    of the stream and leaves the rest as it was: the stream is what was
    consumed followed by what remains. *)
Theorem Read_consumes_prefix r v r' :
  resp.Read r = Ok (v, r') ->
  exists consumed, consumed <> [] /\ r = consumed ++ r'.
Proof.
  intros H. pose proof (Read_consumes r v r' H) as Hlen.
  assert (resp.Read_fuel (S (length r)) r = Some (Ok (v, r'))) as H'
    by (rewrite Read_fuel_enough by lia; by rewrite H).
  apply Read_fuel_suffix in H' as [consumed ->].
  exists consumed. split; [|done]. intros ->. cbn in Hlen. lia.
Qed.

Lemma Read_consumes_prefix_witness :
  exists consumed,
    consumed <> [] /\
    bytes_of "$3" ++ CRLF ++ bytes_of "bar" ++ CRLF ++ bytes_of "+OK"
    = consumed ++ bytes_of "+OK".
Proof.
  apply (Read_consumes_prefix _ (bulk (Some (bytes_of "bar")))). reflexivity.
Defined.

(** ** Arrays *)

Lemma WriteArray_elems_app arr : forall w,
  resp.WriteArray_elems w arr
  = (w ++ (resp.WriteArray_elems [] arr).1, (resp.WriteArray_elems [] arr).2).
Proof.
  induction arr as [|v arr IH]; intros w; cbn [resp.WriteArray_elems].
  - cbn. by rewrite app_nil_r.
  - destruct (resp.T v).
    + rewrite (IH (resp.WriteSimpleString w _)), (IH (resp.WriteSimpleString [] _)).
      cbn [fst snd]. unfold resp.WriteSimpleString. by rewrite <- app_assoc.
    + rewrite (IH (resp.WriteError w _)), (IH (resp.WriteError [] _)).
      cbn [fst snd]. unfold resp.WriteError. by rewrite <- app_assoc.
    + rewrite (IH (resp.WriteInteger w _)), (IH (resp.WriteInteger [] _)).
      cbn [fst snd]. unfold resp.WriteInteger. by rewrite <- app_assoc.
    + rewrite (IH (resp.WriteBulk w _)), (IH (resp.WriteBulk [] _)).
      cbn [fst snd]. rewrite (WriteBulk_app w). by rewrite <- app_assoc.
    + cbn. by rewrite app_nil_r.
Qed.

Lemma scalar_ok_not_array v : scalar_ok v -> resp.T v <> resp.Array.
Proof. unfold scalar_ok. by destruct (resp.T v). Qed.

Lemma elements_bytes_cons v vs :
  resp.T v <> resp.Array ->
  elements_bytes (v :: vs) = elements_bytes [v] ++ elements_bytes vs /\
  (resp.WriteArray_elems [] (v :: vs)).2 = (resp.WriteArray_elems [] vs).2.
Proof.
  intros Hv. unfold elements_bytes. cbn [resp.WriteArray_elems].
  destruct (resp.T v); [| | | |done].
  - by rewrite (WriteArray_elems_app vs (resp.WriteSimpleString [] _)).
  - by rewrite (WriteArray_elems_app vs (resp.WriteError [] _)).
  - by rewrite (WriteArray_elems_app vs (resp.WriteInteger [] _)).
  - by rewrite (WriteArray_elems_app vs (resp.WriteBulk [] _)).
Qed.

Lemma elements_bytes_scalars vs :
  Forall scalar_ok vs -> (resp.WriteArray_elems [] vs).2 = None.
Proof.
  induction 1 as [|v vs Hv _ IH]; [done|].
  by rewrite (proj2 (elements_bytes_cons v vs (scalar_ok_not_array v Hv))).
Qed.

Lemma Read_fuel_scalar fuel v rest :
  scalar_ok v ->
  resp.Read_fuel (S fuel) (elements_bytes [v] ++ rest) = Some (Ok (v, rest)).
Proof.
  unfold scalar_ok, elements_bytes. destruct v as [t s i b a].
  cbn [resp.T resp.S resp.I resp.B resp.A resp.WriteArray_elems].
  destruct t; [| | | |done]; intros (H1 & H2 & H3 & H4); subst; cbn [fst].
  - unfold resp.WriteSimpleString. cbn [app]. rewrite <- !app_assoc.
    rewrite Read_fuel_simple_line with (k := resp.SimpleString); auto.
    by rewrite string_of_bytes_of.
  - unfold resp.WriteError. cbn [app]. rewrite <- !app_assoc.
    rewrite Read_fuel_simple_line with (k := resp.Error); auto.
    by rewrite string_of_bytes_of.
  - unfold resp.WriteInteger. cbn [app]. rewrite <- !app_assoc.
    by apply Read_fuel_integer.
  - by apply Read_fuel_bulk_any.
Qed.

(** the element loop on the bytes of [vs], followed by [k] more elements
    to read from [tail] *)
Lemma readElems_scalars fuel vs : forall k i arr tail,
  Forall scalar_ok vs -> length arr = (i + length vs + k)%nat ->
  resp.readElems (resp.Read_fuel (S fuel)) (length vs + k) i
    (elements_bytes vs ++ tail) arr
  = resp.readElems (resp.Read_fuel (S fuel)) k (i + length vs) tail
      (take i arr ++ vs ++ drop (i + length vs) arr).
Proof.
  induction vs as [|v vs IH]; intros k i arr tail Hok Hlen.
  - cbn [length Nat.add app elements_bytes resp.WriteArray_elems fst].
    rewrite Nat.add_0_r. by rewrite take_drop.
  - inversion Hok as [|? ? Hv Hvs]; subst.
    rewrite (proj1 (elements_bytes_cons v vs (scalar_ok_not_array v Hv))).
    cbn [length Nat.add resp.readElems]. rewrite <- app_assoc.
    rewrite Read_fuel_scalar by done.
    cbn [length] in Hlen.
    rewrite IH; [|done|rewrite length_insert; lia].
    replace (S i + length vs)%nat with (i + S (length vs))%nat by lia.
    f_equal.
    rewrite (take_S_r _ _ v) by (apply list_lookup_insert_eq; lia).
    rewrite take_insert_ge by lia.
    rewrite drop_insert_lt by lia. by rewrite <- app_assoc.
Qed.

Lemma Read_fuel_array_header fuel n body :
  0 <= n <= MaxInt64 ->
  resp.Read_fuel (S fuel) ("*"%char :: fmtInt n ++ CRLF ++ body)
  = match resp.readElems (resp.Read_fuel fuel) (Z.to_nat n) 0 body
            (replicate (Z.to_nat n) resp.Value0) with
    | None => None
    | Some (Err e) => Some (Err e)
    | Some (Panic m) => Some (Panic m)
    | Some (Ok (arr, r)) => Some (Ok (resp.mkValue resp.Array "" 0 None arr, r))
    end.
Proof.
  intros Hn.
  assert (int64 n) as Hi by (unfold int64, MinInt64, MaxInt64 in *; lia).
  destruct (readLine_count n body Hi) as [Hline Hatoi].
  cbn [resp.Read_fuel ReadByte]. rewrite Hline.
  cbn [Ascii.eqb Bool.eqb]. cbn match. rewrite Hatoi.
  by destruct (Z.ltb_spec n 0); [lia|].
Qed.

Lemma readElems_scalars_all fuel vs rest :
  Forall scalar_ok vs ->
  resp.readElems (resp.Read_fuel (S fuel)) (length vs) 0
    (elements_bytes vs ++ rest) (replicate (length vs) resp.Value0)
  = Some (Ok (vs, rest)).
Proof.
  intros Hok.
  pose proof (readElems_scalars fuel vs 0 0 (replicate (length vs) resp.Value0) rest Hok)
    as H.
  cbn [Nat.add] in H. rewrite !Nat.add_0_r in H.
  rewrite H by (by rewrite length_replicate).
  cbn [resp.readElems take app].
  rewrite drop_ge by (rewrite length_replicate; lia). by rewrite app_nil_r.
Qed.

Lemma readElems_scalars_fail fuel vs k tail res :
  Forall scalar_ok vs ->
  resp.Read_fuel (S fuel) tail = Some res -> (forall x, res <> Ok x) ->
  resp.readElems (resp.Read_fuel (S fuel)) (length vs + S k) 0
    (elements_bytes vs ++ tail) (replicate (length vs + S k) resp.Value0)
  = Some (match res with
          | Ok _ => Err EOF | Err e => Err e | Panic m => Panic m
          end).
Proof.
  intros Hok Hres Hnot.
  rewrite readElems_scalars; [|done|rewrite length_replicate; lia].
  cbn [resp.readElems]. rewrite Hres. destruct res as [x| |]; [|done..].
  by destruct (Hnot x).
Qed.

(** a concrete value is a well-formed scalar *)
Ltac scalar_ok_tac :=
  cbn; repeat split;
  first
    [ done
    | (unfold MinInt64, MaxInt64; lia)
    | (intros ? [= <-]; unfold MaxInt64; cbn; lia)
    | (intros ? [=])
    | (let Hin := fresh in
       intros Hin;
       repeat (apply elem_of_cons in Hin as [Hin|Hin]; [discriminate Hin|]);
       by apply elem_of_nil in Hin) ].

(** X6.  What [WriteArray] writes for an array of scalars is decoded by
    [Read] to that array: [WriteArray] reports no error, and [Read] returns
    the elements in order and stops right after the last one. *)
Theorem WriteArray_Read_roundtrip arr rest :
  Forall scalar_ok arr -> Z.of_nat (length arr) <= MaxInt64 ->
  (resp.WriteArray [] arr).2 = None /\
  resp.Read ((resp.WriteArray [] arr).1 ++ rest)
  = Ok (resp.mkValue resp.Array "" 0 None arr, rest).
Proof.
  intros Hok Hlen. unfold resp.WriteArray. rewrite WriteArray_elems_app.
  cbn [fst snd app]. split; [by apply elements_bytes_scalars|].
  apply (Read_of_some_fuel 2). rewrite <- !app_assoc.
  rewrite Read_fuel_array_header by lia.
  rewrite Nat2Z.id. fold (elements_bytes arr).
  by rewrite readElems_scalars_all.
Qed.

Lemma WriteArray_Read_roundtrip_witness :
  let arr := [resp.mkValue resp.SimpleString "OK" 0 None [];
              resp.mkValue resp.Integer "" (-7) None [];
              bulk None; bulk (Some [CR; LF])] in
  (resp.WriteArray [] arr).2 = None /\
  resp.Read ((resp.WriteArray [] arr).1 ++ bytes_of "+next")
  = Ok (resp.mkValue resp.Array "" 0 None arr, bytes_of "+next").
Proof.
  intros arr. apply WriteArray_Read_roundtrip.
  - repeat apply Forall_cons_2; [..|apply Forall_nil_2]; scalar_ok_tac.
  - unfold MaxInt64. cbn. lia.
Defined.

(** the outcome of decoding the element after the well-formed ones, when
    it is not a value, is the outcome of decoding the array *)
Lemma Read_array_outcome n pre tail res :
  Forall scalar_ok pre -> Z.of_nat (length pre) < n <= MaxInt64 ->
  resp.Read tail = res -> (forall x, res <> Ok x) ->
  resp.Read ("*"%char :: fmtInt n ++ CRLF ++ elements_bytes pre ++ tail)
  = match res with Ok _ => Err EOF | Err e => Err e | Panic m => Panic m end.
Proof.
  intros Hok Hn Hres Hnot.
  apply (Read_of_some_fuel (S (S (length tail)))).
  rewrite Read_fuel_array_header by lia.
  replace (Z.to_nat n) with (length pre + S (Z.to_nat n - length pre - 1))%nat by lia.
  rewrite (readElems_scalars_fail _ _ _ _ res); [by destruct res|done| |done].
  rewrite Read_fuel_enough by lia. by rewrite Hres.
Qed.

(** the element loop when the stream ends inside a line element: the
    element is read as an empty text or a zero, and the loop goes on to
    the next one on an empty stream *)
Lemma readElems_truncated_line fuel pre k c l :
  Forall scalar_ok pre ->
  c = "+"%char \/ c = "-"%char \/ c = ":"%char -> LF ∉ l ->
  resp.readElems (resp.Read_fuel (S fuel)) (length pre + S k) 0
    (elements_bytes pre ++ c :: l) (replicate (length pre + S k) resp.Value0)
  = Some (match k with
          | O => Ok (pre ++ [resp.mkValue
                               (if Ascii.eqb c "+" then resp.SimpleString
                                else if Ascii.eqb c "-" then resp.Error
                                     else resp.Integer) "" 0 None []], [])
          | S _ => Err EOF
          end).
Proof.
  intros Hok Hc Hl.
  rewrite readElems_scalars; [|done|rewrite length_replicate; lia].
  cbn [resp.readElems Nat.add take app].
  rewrite Read_fuel_truncated_line by done.
  destruct k as [|k]; cbn [resp.readElems]; [|done].
  rewrite drop_replicate.
  replace (length pre + 1 - length pre)%nat with 1%nat by lia.
  rewrite take_0. cbn [app].
  rewrite insert_app_r_alt by lia. by rewrite Nat.sub_diag.
Qed.

(** X7.  An array whose header announces more elements than the
    well-formed ones that follow, when [make] returns the slice for the
    announced count.  When
    decoding the next element fails or panics, that error or panic is the
    outcome of the whole decode and no element is returned; in particular
    a stream that ends between two elements gives [io.EOF].  A stream that
    ends inside a line element (a simple string, an error or an integer
    with no line feed) does not fail there: when that element is the last
    one announced the array is returned with an empty text or a zero in its
    place, and when more are announced the decode fails with [io.EOF]. *)
Theorem Read_array_element_failure avail n pre tail :
  Forall scalar_ok pre -> Z.of_nat (length pre) < n ->
  makeslice_ok avail resp.sizeof_Value n ->
  let frame := "*"%char :: fmtInt n ++ CRLF ++ elements_bytes pre ++ tail in
  (forall e, resp.Read tail = Err e -> resp.Read frame = Err e) /\
  (forall m, resp.Read tail = Panic m -> resp.Read frame = Panic m) /\
  (tail = [] -> resp.Read frame = Err EOF) /\
  (forall c l,
     tail = c :: l -> c = "+"%char \/ c = "-"%char \/ c = ":"%char -> LF ∉ l ->
     (n = Z.of_nat (length pre) + 1 ->
      resp.Read frame
      = Ok (resp.mkValue resp.Array "" 0 None
              (pre ++ [resp.mkValue
                         (if Ascii.eqb c "+" then resp.SimpleString
                          else if Ascii.eqb c "-" then resp.Error
                               else resp.Integer) "" 0 None []]), [])) /\
     (Z.of_nat (length pre) + 1 < n -> resp.Read frame = Err EOF)).
Proof.
  intros Hok Hpre (_ & Hmem & Halloc) frame. subst frame.
  assert (Z.of_nat (length pre) < n <= MaxInt64) as Hn
    by (unfold resp.sizeof_Value, maxAlloc, MaxInt64 in *; lia).
  split; [|split; [|split]].
  - intros e He. by apply (Read_array_outcome n pre tail (Err e)).
  - intros m Hm. by apply (Read_array_outcome n pre tail (Panic m)).
  - intros ->. by apply (Read_array_outcome n pre [] (Err EOF)).
  - intros c l -> Hc Hl. split.
    + intros ->. apply (Read_of_some_fuel 2).
      rewrite Read_fuel_array_header by lia.
      replace (Z.to_nat (Z.of_nat (length pre) + 1)) with (length pre + 1)%nat by lia.
      by rewrite readElems_truncated_line.
    + intros Hmore. apply (Read_of_some_fuel 2).
      rewrite Read_fuel_array_header by lia.
      replace (Z.to_nat n) with (length pre + S (S (Z.to_nat n - length pre - 2)))%nat
        by lia.
      by rewrite readElems_truncated_line.
Qed.

Lemma Read_array_element_failure_witness :
  resp.Read (bytes_of "*3" ++ CRLF ++ bytes_of "+OK" ++ CRLF ++ bytes_of "?")
  = Err (errors_New "unknown RESP prefix") /\
  resp.Read (bytes_of "*3" ++ CRLF ++ bytes_of "+OK" ++ CRLF ++ bytes_of "*-1" ++ CRLF)
  = Panic "makeslice: len out of range" /\
  resp.Read (bytes_of "*3" ++ CRLF ++ bytes_of "+OK" ++ CRLF) = Err EOF /\
  resp.Read (bytes_of "*2" ++ CRLF ++ bytes_of "+OK" ++ CRLF ++ bytes_of "+OK")
  = Ok (resp.mkValue resp.Array "" 0 None
          [resp.mkValue resp.SimpleString "OK" 0 None [];
           resp.mkValue resp.SimpleString "" 0 None []], []) /\
  resp.Read (bytes_of "*3" ++ CRLF ++ bytes_of "+OK" ++ CRLF ++ bytes_of ":12")
  = Err EOF.
Proof.
  assert (Forall scalar_ok [resp.mkValue resp.SimpleString "OK" 0 None []]) as Hok
    by (apply Forall_cons_2; [scalar_ok_tac|apply Forall_nil_2]).
  assert (Z.of_nat (length [resp.mkValue resp.SimpleString "OK" 0 None []]) < 3) as H3
    by (cbn; lia).
  assert (Z.of_nat (length [resp.mkValue resp.SimpleString "OK" 0 None []]) < 2) as H2
    by (cbn; lia).
  assert (makeslice_ok 4096 resp.sizeof_Value 3 /\
          makeslice_ok 4096 resp.sizeof_Value 2)
    as [Ha3 Ha2] by (unfold makeslice_ok, resp.sizeof_Value, maxAlloc; lia).
  split; [|split; [|split; [|split]]].
  - destruct (Read_array_element_failure 4096 3 _ (bytes_of "?") Hok H3 Ha3) as (H & _).
    by apply H.
  - destruct (Read_array_element_failure 4096 3 _ (bytes_of "*-1" ++ CRLF) Hok H3 Ha3)
      as (_ & H & _).
    by apply H.
  - destruct (Read_array_element_failure 4096 3 _ [] Hok H3 Ha3) as (_ & _ & H & _).
    by apply H.
  - destruct (Read_array_element_failure 4096 2 _ (bytes_of "+OK") Hok H2 Ha2)
      as (_ & _ & _ & H).
    destruct (H "+"%char (bytes_of "OK")) as [Hlast _]; [reflexivity|by left| |].
    + intros Hin.
      repeat (apply elem_of_cons in Hin as [Hin|Hin]; [discriminate Hin|]).
      by apply elem_of_nil in Hin.
    + by apply Hlast.
  - destruct (Read_array_element_failure 4096 3 _ (bytes_of ":12") Hok H3 Ha3)
      as (_ & _ & _ & H).
    destruct (H ":"%char (bytes_of "12")) as [_ Hmore]; [reflexivity|by right; right| |].
    + intros Hin.
      repeat (apply elem_of_cons in Hin as [Hin|Hin]; [discriminate Hin|]).
      by apply elem_of_nil in Hin.
    + apply Hmore. cbn. lia.
Defined.

(** X8.  [WriteArray] given an array that holds a nested array reports the
    error "unsupported nested type" only after it has written the header,
    with the full count, and the scalars in front of the nested array:
    the writer is left with a frame that announces more elements than it
    holds, and decoding it fails for want of bytes. *)
Theorem WriteArray_nested_partial_write pre v post :
  Forall scalar_ok pre -> resp.T v = resp.Array ->
  Z.of_nat (length (pre ++ v :: post)) <= MaxInt64 ->
  (resp.WriteArray [] (pre ++ v :: post)).2
  = Some (errors_New "unsupported nested type") /\
  (resp.WriteArray [] (pre ++ v :: post)).1
  = "*"%char :: fmtInt (Z.of_nat (length (pre ++ v :: post))) ++ CRLF
    ++ elements_bytes pre /\
  resp.Read (resp.WriteArray [] (pre ++ v :: post)).1 = Err EOF.
Proof.
  intros Hok Hv Hlen.
  assert (resp.WriteArray_elems [] (pre ++ v :: post)
          = (elements_bytes pre, Some (errors_New "unsupported nested type"))) as He.
  { clear Hlen. induction Hok as [|u pre Hu _ IH].
    - cbn [app resp.WriteArray_elems]. by rewrite Hv.
    - pose proof (elements_bytes_cons u (pre ++ v :: post) (scalar_ok_not_array u Hu))
        as [H1 H2].
      pose proof (elements_bytes_cons u pre (scalar_ok_not_array u Hu)) as [H3 _].
      unfold elements_bytes in *. cbn [app].
      rewrite (surjective_pairing (resp.WriteArray_elems [] (u :: pre ++ v :: post))).
      rewrite H1, H2, H3, IH. done. }
  unfold resp.WriteArray. rewrite WriteArray_elems_app, He. cbn [fst snd app].
  rewrite <- !app_assoc. split; [done|]. split; [done|].
  rewrite <- (app_nil_r (elements_bytes pre)).
  apply (Read_array_outcome _ pre [] (Err EOF)); [done| |done|done].
  rewrite length_app in *. cbn [length] in *. lia.
Qed.

Lemma WriteArray_nested_partial_write_witness :
  let inner := resp.mkValue resp.Array "" 0 None [] in
  let arr := [resp.mkValue resp.Integer "" 1 None []; inner; bulk None] in
  (resp.WriteArray [] arr).2 = Some (errors_New "unsupported nested type") /\
  (resp.WriteArray [] arr).1 = bytes_of "*3" ++ CRLF ++ bytes_of ":1" ++ CRLF /\
  resp.Read (resp.WriteArray [] arr).1 = Err EOF.
Proof.
  intros inner arr.
  apply (WriteArray_nested_partial_write
           [resp.mkValue resp.Integer "" 1 None []] inner [bulk None]).
  - apply Forall_cons_2; [scalar_ok_tac|apply Forall_nil_2].
  - reflexivity.
  - unfold MaxInt64. cbn. lia.
Defined.

(* ===================================================================== *)
(** * Further properties of the store and the handlers                    *)
(* ===================================================================== *)

(** ** Numbers in arguments *)

Lemma parseIntMs_fold l : forall acc,
  Forall (fun c => isDigit c = true) l -> 0 <= acc ->
  digitsValue l acc <= MaxInt64 ->
  fold_left (fun n c => add64 (mul64 n 10) ((byteZ c - 48) mod 256)) l acc
  = digitsValue l acc.
Proof.
  induction l as [|c l IH]; intros acc Hl Hacc Hmax; cbn [fold_left digitsValue]; [done|].
  inversion Hl as [|? ? Hc Hl']; subst.
  pose proof (isDigit_value c Hc) as Hd.
  assert (acc * 10 + (byteZ c - 48) <= MaxInt64) as Hn1.
  { etrans; [apply (digitsValue_ge l)|exact Hmax]; [done|lia]. }
  unfold MaxInt64 in *.
  rewrite Z.mod_small by lia.
  unfold add64, mul64.
  rewrite (wrap64_id (acc * 10)) by (unfold int64, MinInt64, MaxInt64; lia).
  rewrite wrap64_id by (unfold int64, MinInt64, MaxInt64; lia).
  apply IH; [done|lia|done].
Qed.

Lemma parseIntMs_fmtUint n mul :
  0 <= n -> 1 <= mul -> n * mul <= MaxInt64 ->
  parseIntMs (Some (fmtUint n)) mul = n * mul.
Proof.
  intros Hn Hmul Hmax. unfold parseIntMs. cbn [default from_option id].
  rewrite parseIntMs_fold; rewrite ?fmtUint_value; try lia.
  - apply wrap64_id. unfold int64, MinInt64, MaxInt64 in *. nia.
  - by apply fmtUint_digits.
  - unfold MaxInt64 in *. nia.
Qed.

(** X9.  [parseIntMs] reads a decimal number exactly and scales it by the
    unit, as long as the product fits an int64; a nil or empty argument is
    0.  Nothing is ever rejected: a byte that is not a digit is folded in
    as if it were one, so a leading minus sign does not make the result
    negative. *)
Theorem parseIntMs_decimal :
  (forall n mul, 0 <= n -> 1 <= mul -> n * mul <= MaxInt64 ->
     parseIntMs (Some (fmtUint n)) mul = n * mul) /\
  (forall mul, parseIntMs None mul = 0 /\ parseIntMs (Some []) mul = 0) /\
  (forall n mul, 0 <= n -> 1 <= mul ->
     (253 * 10 ^ Z.of_nat (length (fmtUint n)) + n) * mul <= MaxInt64 ->
     parseIntMs (Some ("-"%char :: fmtUint n)) mul
     = (253 * 10 ^ Z.of_nat (length (fmtUint n)) + n) * mul).
Proof.
  split; [exact parseIntMs_fmtUint|]. split.
  - intros mul. unfold parseIntMs, mul64. cbn. by rewrite !wrap64_id by done.
  - intros n mul Hn Hmul Hmax. unfold parseIntMs. cbn [default from_option id fold_left].
    assert (0 <= 10 ^ Z.of_nat (length (fmtUint n))) as Hpow
      by (apply Z.pow_nonneg; lia).
    assert (digitsValue (fmtUint n) 253
            = 253 * 10 ^ Z.of_nat (length (fmtUint n)) + n) as Hval.
    { unfold fmtUint. apply fmtUint_fuel_value.
      split; [done|]. rewrite Nat2Z.inj_succ, Z2Nat.id by apply Z.log2_nonneg.
      destruct (Z.eq_dec n 0) as [->|]; [done|]. apply Z.log2_spec. lia. }
    replace (add64 (mul64 0 10) ((byteZ "-" - 48) mod 256)) with 253 by done.
    rewrite parseIntMs_fold; rewrite ?Hval; try lia.
    + apply wrap64_id. unfold int64, MinInt64, MaxInt64 in *. nia.
    + by apply fmtUint_digits.
    + unfold MaxInt64 in *. nia.
Qed.

Lemma parseIntMs_decimal_witness :
  parseIntMs (Some (bytes_of "120")) 1000 = 120 * 1000 /\
  parseIntMs (Some (bytes_of "-1")) 1000 = 2531 * 1000.
Proof.
  destruct parseIntMs_decimal as (Hdec & _ & Hminus). split.
  - apply (Hdec 120 1000); unfold MaxInt64; lia.
  - apply (Hminus 1 1000); unfold MaxInt64; cbn; lia.
Defined.

(** ** SET with an expiry *)

Lemma handleSet_five w st c kv vv opt sv more now :
  handleSet w st (c :: kv :: vv :: opt :: sv :: more) now
  = (resp.WriteSimpleString w "OK",
     set st (string_of_slice (resp.B kv)) (resp.B vv)
       (let o := ToUpper (string_of_slice (resp.B opt)) in
        if String.eqb o "PX" then parseIntMs (resp.B sv) 1
        else if String.eqb o "EX" then parseIntMs (resp.B sv) 1000 else 0)
       now).
Proof. reflexivity. Qed.




(** X11.  SET never rejects its options.  With a fourth element but no
    fifth, with an option that is neither EX nor PX, or with a value that
    reads as 0, the reply is still +OK and the entry is stored without
    expiry: it is returned by GET at every later time. *)
Theorem handleSet_option_ignored w st c kv vv rest now :
  (length rest <= 1)%nat \/
  (exists opt sv more, rest = opt :: sv :: more /\
     ToUpper (string_of_slice (resp.B opt)) <> "EX"%string /\
     ToUpper (string_of_slice (resp.B opt)) <> "PX"%string) \/
  (exists opt sv more, rest = opt :: sv :: more /\ parseIntMs (resp.B sv) 1 = 0) ->
  let key := string_of_slice (resp.B kv) in
  let st1 := (handleSet w st (c :: kv :: vv :: rest) now).2 in
  (handleSet w st (c :: kv :: vv :: rest) now).1 = resp.WriteSimpleString w "OK" /\
  data st1 !! key = Some (mkEntry (resp.B vv) 0) /\
  (forall w' c' t, handleGet w' st1 [c'; kv] t = resp.WriteBulk w' (resp.B vv)).
Proof.
  intros Hrest key st1.
  assert (handleSet w st (c :: kv :: vv :: rest) now
          = (resp.WriteSimpleString w "OK", set st key (resp.B vv) 0 now)) as Hset.
  { destruct Hrest as [Hlen|[(opt & sv & more & -> & Hex & Hpx)|(opt & sv & more & -> & Hz)]].
    - destruct rest as [|o [|? ?]]; [done|done|cbn in Hlen; lia].
    - rewrite handleSet_five. cbn zeta.
      destruct (String.eqb_spec (ToUpper (string_of_slice (resp.B opt))) "PX"); [done|].
      by destruct (String.eqb_spec (ToUpper (string_of_slice (resp.B opt))) "EX").
    - rewrite handleSet_five. cbn zeta.
      assert (parseIntMs (resp.B sv) 1000 = 0) as Hz'.
      { unfold parseIntMs, mul64 in *. rewrite Z.mul_1_r in Hz.
        set (n := fold_left _ _ _) in *.
        destruct (wrap64_spec n) as (q & Hq & _). rewrite Hz in Hq.
        assert (n = q * 2 ^ 64) as -> by lia.
        unfold wrap64. replace (q * 2 ^ 64 * 1000 + 2 ^ 63)
          with (2 ^ 63 + (q * 1000) * 2 ^ 64) by lia.
        by rewrite Z.mod_add. }
      rewrite Hz, Hz'. by repeat destruct (String.eqb _ _). }
  subst st1. rewrite Hset. cbn [fst snd].
  assert (data (set st key (resp.B vv) 0 now) !! key = Some (mkEntry (resp.B vv) 0))
    as Hl by apply lookup_insert_eq.
  split; [done|]. split; [done|].
  intros w' c' t. rewrite handleGet_two. fold key. by rewrite get_lookup, Hl.
Qed.

Lemma handleSet_option_ignored_witness :
  let b s := bulk (Some (bytes_of s)) in
  (forall t, handleGet [] (handleSet [] (mkStore ∅) [b "SET"; b "k"; b "v"; b "EX"] 5).2
               [b "GET"; b "k"] t = resp.WriteBulk [] (Some (bytes_of "v"))) /\
  (forall t, handleGet [] (handleSet [] (mkStore ∅)
                             [b "SET"; b "k"; b "v"; b "KEEPTTL"; b "1"] 5).2
               [b "GET"; b "k"] t = resp.WriteBulk [] (Some (bytes_of "v"))) /\
  (forall t, handleGet [] (handleSet [] (mkStore ∅)
                             [b "SET"; b "k"; b "v"; b "EX"; b "0"] 5).2
               [b "GET"; b "k"] t = resp.WriteBulk [] (Some (bytes_of "v"))).
Proof.
  intros b. split; [|split]; intros t.
  - apply (handleSet_option_ignored [] (mkStore ∅) (b "SET"%string) (b "k"%string)
             (b "v"%string) [b "EX"%string] 5).
    left. cbn. lia.
  - apply (handleSet_option_ignored [] (mkStore ∅) (b "SET"%string) (b "k"%string)
             (b "v"%string) [b "KEEPTTL"%string; b "1"%string] 5).
    right; left. eexists _, _, _. split; [reflexivity|]. split; discriminate.
  - apply (handleSet_option_ignored [] (mkStore ∅) (b "SET"%string) (b "k"%string)
             (b "v"%string) [b "EX"%string; b "0"%string] 5).
    right; right. eexists _, _, _. split; reflexivity.
Defined.

(** ** EXPIRE *)

Lemma handleExpire_three w st c kv sv now :
  handleExpire w st [c; kv; sv] now
  = match data st !! string_of_slice (resp.B kv) with
    | Some e =>
        (resp.WriteInteger w 1,
         mkStore (<[string_of_slice (resp.B kv) :=
                      mkEntry (val e) (add64 now (parseIntMs (resp.B sv) 1000))]>
                    (data st)))
    | None => (resp.WriteInteger w 0, st)
    end.
Proof. reflexivity. Qed.



(** X13.  EXPIRE on a key that is not in the map replies 0 and leaves the
    store as it was: the key is not created, and GET still replies the
    null bulk.  This holds whatever the seconds argument is. *)
Theorem handleExpire_missing w st c kv sv now :
  data st !! string_of_slice (resp.B kv) = None ->
  handleExpire w st [c; kv; sv] now = (resp.WriteInteger w 0, st) /\
  forall w' c' t,
    handleGet w' (handleExpire w st [c; kv; sv] now).2 [c'; kv] t
    = resp.WriteBulk w' None.
Proof.
  intros Hl. rewrite handleExpire_three, Hl. split; [done|].
  intros w' c' t. cbn [snd]. by rewrite handleGet_two, get_lookup, Hl.
Qed.

Lemma handleExpire_missing_witness :
  let b s := bulk (Some (bytes_of s)) in
  handleExpire [] (mkStore ∅) [b "EXPIRE"; b "k"; b "10"] 5000
  = (resp.WriteInteger [] 0, mkStore ∅).
Proof.
  intros b.
  apply (handleExpire_missing [] (mkStore ∅) (b "EXPIRE"%string) (b "k"%string)
           (b "10"%string) 5000).
  reflexivity.
Defined.

(* ===================================================================== *)
(** * Further properties of the connection loop                           *)
(* ===================================================================== *)

Lemma dispatch_name w st v now :
  dispatch w st v now
  = let args := resp.A v in
    let cmd := command_name v in
    if String.eqb cmd "PING" then
      if (1 <? length args)%nat then (resp.WriteBulk w (resp.B (index args 1)), st)
      else (resp.WriteSimpleString w "PONG", st)
    else if String.eqb cmd "ECHO" then
      if negb (length args =? 2)%nat
         || negb (bool_decide (resp.T (index args 1) = resp.BulkString))
      then (resp.WriteError w "ERR wrong number of arguments for 'echo'", st)
      else (resp.WriteBulk w (resp.B (index args 1)), st)
    else if String.eqb cmd "SET" then handleSet w st args now
    else if String.eqb cmd "GET" then (handleGet w st args now, st)
    else if String.eqb cmd "DEL" then handleDel w st args
    else if String.eqb cmd "EXPIRE" then handleExpire w st args now
    else if String.eqb cmd "TTL" then (handleTTL w st args now, st)
    else (resp.WriteError w ("ERR unknown command '" +:+ cmd +:+ "'"), st).
Proof. reflexivity. Qed.

(** rewrite the dispatcher for a request whose name is known *)
Ltac dispatch_on H :=
  rewrite dispatch_name; cbn zeta; rewrite H; cbn [String.eqb Ascii.eqb Bool.eqb].

(** X14.  A request with the wrong number of elements for its command
    (or, for ECHO, an argument that is not a bulk string) gets the usage
    error that names the command, and the store is left as it was. *)
Theorem dispatch_usage_error w st v now :
  let n := length (resp.A v) in
  let usage c := (resp.WriteError w ("ERR wrong number of arguments for '" +:+ c +:+ "'"),
                  st) in
  (command_name v = "SET"%string -> (n < 3)%nat -> dispatch w st v now = usage "set") /\
  (command_name v = "GET"%string -> n <> 2%nat -> dispatch w st v now = usage "get") /\
  (command_name v = "DEL"%string -> (n < 2)%nat -> dispatch w st v now = usage "del") /\
  (command_name v = "EXPIRE"%string -> n <> 3%nat ->
     dispatch w st v now = usage "expire") /\
  (command_name v = "TTL"%string -> n <> 2%nat -> dispatch w st v now = usage "ttl") /\
  (command_name v = "ECHO"%string ->
     n <> 2%nat \/ resp.T (index (resp.A v) 1) <> resp.BulkString ->
     dispatch w st v now = usage "echo").
Proof.
  intros n usage. subst n usage. cbn beta.
  split; [|split; [|split; [|split; [|split]]]]; intros Hc Hn; dispatch_on Hc.
  - unfold handleSet. by destruct (Nat.ltb_spec (length (resp.A v)) 3); [|lia].
  - unfold handleGet. by destruct (Nat.eqb_spec (length (resp.A v)) 2).
  - unfold handleDel. by destruct (Nat.ltb_spec (length (resp.A v)) 2); [|lia].
  - unfold handleExpire. by destruct (Nat.eqb_spec (length (resp.A v)) 3).
  - unfold handleTTL. by destruct (Nat.eqb_spec (length (resp.A v)) 2).
  - destruct Hn as [Hn|Hn].
    + by destruct (Nat.eqb_spec (length (resp.A v)) 2).
    + by rewrite (bool_decide_eq_false_2 _ Hn), orb_true_r.
Qed.

Lemma dispatch_usage_error_witness :
  let b s := bulk (Some (bytes_of s)) in
  dispatch [] (mkStore ∅) (resp.mkValue resp.Array "" 0 None [b "get"]) 0
  = (resp.WriteError [] "ERR wrong number of arguments for 'get'", mkStore ∅) /\
  dispatch [] (mkStore ∅)
    (resp.mkValue resp.Array "" 0 None
       [b "echo"; resp.mkValue resp.Integer "" 5 None []]) 0
  = (resp.WriteError [] "ERR wrong number of arguments for 'echo'", mkStore ∅).
Proof.
  intros b. split.
  - apply (dispatch_usage_error [] (mkStore ∅)
             (resp.mkValue resp.Array "" 0 None [b "get"%string]) 0);
      [reflexivity|discriminate].
  - apply (dispatch_usage_error [] (mkStore ∅)
             (resp.mkValue resp.Array "" 0 None
                [b "echo"%string; resp.mkValue resp.Integer "" 5 None []]) 0);
      [reflexivity|right; discriminate].
Defined.

(** X15.  PING alone is answered +PONG; PING with arguments echoes the
    first one as a bulk string, however many follow it, and an argument
    that is not a bulk string is echoed as the null bulk.  ECHO with
    exactly one bulk argument echoes it.  Neither touches the store. *)
Theorem dispatch_PING_ECHO w st v now :
  let n := length (resp.A v) in
  (command_name v = "PING"%string -> (n <= 1)%nat ->
     dispatch w st v now = (w ++ bytes_of "+PONG" ++ CRLF, st)) /\
  (command_name v = "PING"%string -> (1 < n)%nat ->
     dispatch w st v now = (resp.WriteBulk w (resp.B (index (resp.A v) 1)), st)) /\
  (command_name v = "PING"%string -> (1 < n)%nat ->
     resp.T (index (resp.A v) 1) <> resp.BulkString ->
     scalar_ok (index (resp.A v) 1) ->
     dispatch w st v now = (w ++ bytes_of "$-1" ++ CRLF, st)) /\
  (command_name v = "ECHO"%string -> n = 2%nat ->
     resp.T (index (resp.A v) 1) = resp.BulkString ->
     dispatch w st v now = (resp.WriteBulk w (resp.B (index (resp.A v) 1)), st)).
Proof.
  intros n. subst n. split; [|split; [|split]].
  - intros Hc Hn. dispatch_on Hc.
    by destruct (Nat.ltb_spec 1 (length (resp.A v))); [lia|].
  - intros Hc Hn. dispatch_on Hc.
    by destruct (Nat.ltb_spec 1 (length (resp.A v))); [|lia].
  - intros Hc Hn Hk Hok. dispatch_on Hc.
    destruct (Nat.ltb_spec 1 (length (resp.A v))); [|lia].
    unfold scalar_ok in Hok.
    destruct (resp.T (index (resp.A v) 1)); try done;
      by destruct Hok as (_ & _ & -> & _).
  - intros Hc Hn Hk. dispatch_on Hc.
    rewrite Hn, (bool_decide_eq_true_2 _ Hk). done.
Qed.

Lemma dispatch_PING_ECHO_witness :
  let b s := bulk (Some (bytes_of s)) in
  dispatch [] (mkStore ∅) (resp.mkValue resp.Array "" 0 None [b "ping"]) 0
  = ([] ++ bytes_of "+PONG" ++ CRLF, mkStore ∅) /\
  dispatch [] (mkStore ∅) (resp.mkValue resp.Array "" 0 None [b "PING"; b "a"; b "b"]) 0
  = (resp.WriteBulk [] (Some (bytes_of "a")), mkStore ∅) /\
  dispatch [] (mkStore ∅)
    (resp.mkValue resp.Array "" 0 None
       [b "PING"; resp.mkValue resp.Integer "" 5 None []]) 0
  = ([] ++ bytes_of "$-1" ++ CRLF, mkStore ∅) /\
  dispatch [] (mkStore ∅) (resp.mkValue resp.Array "" 0 None [b "Echo"; b "a"]) 0
  = (resp.WriteBulk [] (Some (bytes_of "a")), mkStore ∅).
Proof.
  intros b. split; [|split; [|split]].
  - destruct (dispatch_PING_ECHO [] (mkStore ∅)
                (resp.mkValue resp.Array "" 0 None [b "ping"%string]) 0)
      as (H & _).
    apply H; [reflexivity|cbn; lia].
  - destruct (dispatch_PING_ECHO [] (mkStore ∅)
                (resp.mkValue resp.Array "" 0 None
                   [b "PING"%string; b "a"%string; b "b"%string]) 0)
      as (_ & H & _).
    apply H; [reflexivity|cbn; lia].
  - destruct (dispatch_PING_ECHO [] (mkStore ∅)
                (resp.mkValue resp.Array "" 0 None
                   [b "PING"%string; resp.mkValue resp.Integer "" 5 None []]) 0)
      as (_ & _ & H & _).
    apply H; [reflexivity|cbn; lia|discriminate|scalar_ok_tac].
  - destruct (dispatch_PING_ECHO [] (mkStore ∅)
                (resp.mkValue resp.Array "" 0 None [b "Echo"%string; b "a"%string]) 0)
      as (_ & _ & _ & H).
    apply H; reflexivity.
Defined.

Lemma bytes_of_append s t : bytes_of (s +:+ t) = bytes_of s ++ bytes_of t.
Proof.
  unfold bytes_of. induction s as [|c s IH]; [done|].
  change (String c s +:+ t) with (String c (s +:+ t)).
  cbn [list_ascii_of_string app]. by rewrite IH.
Qed.

(** X16.  For a request whose name is made of ASCII bytes, only SET, DEL
    and EXPIRE can change the store: with any other name, known or not,
    the store is left as it was.  A name that is none of the seven commands
    is answered with the error line that quotes the name in upper case.
    (A name with other bytes is upper-cased by the library as Unicode text,
    and can come out as one of the commands.) *)
Theorem dispatch_store_unchanged w st v now :
  isASCII (string_of_slice (resp.B (index (resp.A v) 0))) = true ->
  (command_name v <> "SET"%string -> command_name v <> "DEL"%string ->
   command_name v <> "EXPIRE"%string -> (dispatch w st v now).2 = st) /\
  (Forall (fun c => command_name v <> c)
     ["PING"; "ECHO"; "SET"; "GET"; "DEL"; "EXPIRE"; "TTL"]%string ->
   dispatch w st v now
   = (w ++ bytes_of "-ERR unknown command '" ++ bytes_of (command_name v)
        ++ bytes_of "'" ++ CRLF, st)).
Proof.
  intros _. split.
  - intros Hset Hdel Hexp. rewrite dispatch_name. cbn zeta.
    destruct (String.eqb_spec (command_name v) "PING");
      [by destruct (1 <? length (resp.A v))%nat|].
    destruct (String.eqb_spec (command_name v) "ECHO"); [by destruct (_ || _)|].
    destruct (String.eqb_spec (command_name v) "SET"); [done|].
    destruct (String.eqb_spec (command_name v) "GET"); [done|].
    destruct (String.eqb_spec (command_name v) "DEL"); [done|].
    destruct (String.eqb_spec (command_name v) "EXPIRE"); [done|].
    by destruct (String.eqb_spec (command_name v) "TTL").
  - intros Hall. rewrite dispatch_name. cbn zeta.
    repeat (apply Forall_cons_1 in Hall as [Hne Hall];
            apply String.eqb_neq in Hne; rewrite Hne; clear Hne).
    unfold resp.WriteError. rewrite !bytes_of_append, <- !app_assoc. done.
Qed.

Lemma dispatch_store_unchanged_witness :
  let b s := bulk (Some (bytes_of s)) in
  let st := set (mkStore ∅) "k" (Some (bytes_of "v")) 0 5 in
  (dispatch [] st (resp.mkValue resp.Array "" 0 None [b "get"; b "k"]) 9).2 = st /\
  dispatch [] st (resp.mkValue resp.Array "" 0 None [b "flushall"]) 9
  = (bytes_of "-ERR unknown command 'FLUSHALL'" ++ CRLF, st).
Proof.
  intros b st. split.
  - apply (dispatch_store_unchanged [] st
             (resp.mkValue resp.Array "" 0 None [b "get"%string; b "k"%string]) 9);
      [reflexivity|discriminate..].
  - apply (dispatch_store_unchanged [] st
             (resp.mkValue resp.Array "" 0 None [b "flushall"%string]) 9);
      [reflexivity|].
    repeat (apply Forall_cons_2; [discriminate|]). apply Forall_nil_2.
Defined.

(** ** Replies *)

Lemma reply_WriteSimpleString w s :
  exists c reply, resp.WriteSimpleString w s = w ++ c :: reply /\ reply_prefix c.
Proof. eexists _, _. split; [reflexivity|]. unfold reply_prefix. auto. Qed.

Lemma reply_WriteError w s :
  exists c reply, resp.WriteError w s = w ++ c :: reply /\ reply_prefix c.
Proof. eexists _, _. split; [reflexivity|]. unfold reply_prefix. auto. Qed.

Lemma reply_WriteInteger w i :
  exists c reply, resp.WriteInteger w i = w ++ c :: reply /\ reply_prefix c.
Proof. eexists _, _. split; [reflexivity|]. unfold reply_prefix. auto. Qed.

Lemma reply_WriteBulk w b :
  exists c reply, resp.WriteBulk w b = w ++ c :: reply /\ reply_prefix c.
Proof.
  destruct b as [l|]; cbn [resp.WriteBulk].
  - exists "$"%char, (fmtInt (Z.of_nat (length l)) ++ CRLF ++ l ++ CRLF).
    split; [|unfold reply_prefix; auto]. rewrite <- !app_assoc. cbn [app].
    by rewrite <- !app_assoc.
  - eexists _, _. split; [reflexivity|]. unfold reply_prefix. auto.
Qed.

Lemma dispatch_reply w st v now :
  exists c reply, (dispatch w st v now).1 = w ++ c :: reply /\ reply_prefix c.
Proof.
  rewrite dispatch_name. cbn zeta.
  destruct (String.eqb (command_name v) "PING").
  { destruct (1 <? length (resp.A v))%nat; cbn [fst];
      [apply reply_WriteBulk|apply reply_WriteSimpleString]. }
  destruct (String.eqb (command_name v) "ECHO").
  { destruct (_ || _); cbn [fst]; [apply reply_WriteError|apply reply_WriteBulk]. }
  destruct (String.eqb (command_name v) "SET").
  { unfold handleSet. destruct (length (resp.A v) <? 3)%nat; cbn [fst];
      [apply reply_WriteError|apply reply_WriteSimpleString]. }
  destruct (String.eqb (command_name v) "GET").
  { unfold handleGet. destruct (negb _); cbn [fst]; [apply reply_WriteError|].
    destruct (get _ _ _); apply reply_WriteBulk. }
  destruct (String.eqb (command_name v) "DEL").
  { unfold handleDel. destruct (length (resp.A v) <? 2)%nat; cbn [fst];
      [apply reply_WriteError|].
    destruct (del _ _). cbn [fst]. apply reply_WriteInteger. }
  destruct (String.eqb (command_name v) "EXPIRE").
  { unfold handleExpire. destruct (negb _); cbn [fst]; [apply reply_WriteError|].
    destruct (data st !! _); cbn [fst]; apply reply_WriteInteger. }
  destruct (String.eqb (command_name v) "TTL"); cbn [fst]; [|apply reply_WriteError].
  unfold handleTTL. destruct (negb _); [apply reply_WriteError|].
  destruct (data st !! _) as [e|]; [|apply reply_WriteInteger].
  destruct (exp e =? 0); [apply reply_WriteInteger|].
  destruct (_ <? 0); apply reply_WriteInteger.
Qed.

(** X17.  One turn of the loop either returns, with the output and the
    store exactly as they were, or appends one non-empty reply to what was
    already written and goes on with a strictly shorter stream.  The reply
    starts with one of the four scalar prefixes: the server never sends an
    array. *)
Theorem handleConn_step_reply w st r now :
  (forall w' st', handleConn_step w st r now = Return w' st' -> w' = w /\ st' = st) /\
  (forall w' st' r', handleConn_step w st r now = Continue w' st' r' ->
     (exists c reply, w' = w ++ c :: reply /\ reply_prefix c) /\
     (length r' < length r)%nat).
Proof.
  split.
  - intros w' st'. unfold handleConn_step.
    destruct (resp.Read r) as [[v r1]|e|m]; [|by intros [= <- <-]|done].
    destruct (_ || _); [done|]. by destruct (dispatch w st v now).
  - intros w' st' r' H. split; [|by eapply handleConn_step_consumes].
    unfold handleConn_step in H.
    destruct (resp.Read r) as [[v r1]|e|m]; [|done..].
    destruct (_ || _).
    + injection H as <- _ _. apply reply_WriteError.
    + pose proof (dispatch_reply w st v now) as Hd.
      destruct (dispatch w st v now) as [w1 st1]. by injection H as <- _ _.
Qed.

Lemma handleConn_step_reply_witness :
  exists c reply,
    bytes_of "+PONG" ++ CRLF = [] ++ c :: reply /\ reply_prefix c.
Proof.
  destruct (handleConn_step_reply [] (mkStore ∅)
              (command [Some (bytes_of "PING")]) 0) as [_ Hcont].
  apply (Hcont (bytes_of "+PONG" ++ CRLF) (mkStore ∅) []). reflexivity.
Defined.

(** ** Requests sent back to back *)

Lemma handleConn_fuel_commands clock cmds : forall fuel i w st,
  Forall (fun args => Forall bulk_ok args /\ args <> []
                      /\ Z.of_nat (length args) <= MaxInt64) cmds ->
  (length (concat (map command cmds)) < fuel)%nat ->
  handleConn_fuel fuel clock i w st (concat (map command cmds))
  = Some (Ok (run_commands clock i w st cmds)).
Proof.
  induction cmds as [|args cmds IH]; intros fuel i w st Hok Hfuel.
  - destruct fuel as [|fuel]; [cbn in Hfuel; lia|]. reflexivity.
  - inversion Hok as [|? ? (Hargs & Hne & Hlen) Hcmds]; subst.
    destruct fuel as [|fuel]; [lia|].
    cbn [map concat handleConn_fuel run_commands] in *.
    rewrite handleConn_step_command by done.
    destruct (dispatch w st _ (clock i)) as [w' st']. cbn [fst snd].
    apply IH; [done|].
    rewrite length_app, command_bytes in Hfuel. cbn [length] in Hfuel. lia.
Qed.

(** X18.  Requests that arrive back to back on one connection are handled
    in order, each on the output and the store the previous one left and at
    its own reading of the clock; when the stream ends after the last of
    them the loop returns.  Nothing is lost or reordered when a client does
    not wait for the replies. *)
Theorem handleConn_pipelined clock w st cmds :
  Forall (fun args => Forall bulk_ok args /\ args <> []
                      /\ Z.of_nat (length args) <= MaxInt64) cmds ->
  handleConn clock w st (concat (map command cmds))
  = Ok (run_commands clock 0 w st cmds).
Proof.
  intros Hok. unfold handleConn.
  by rewrite handleConn_fuel_commands by (done || lia).
Qed.

Lemma handleConn_pipelined_witness :
  let b s := Some (bytes_of s) in
  handleConn (fun i => 1000 + Z.of_nat i) [] (mkStore ∅)
    (concat (map command [[b "SET"; b "k"; b "v"]; [b "GET"; b "k"]; [b "DEL"; b "k"]]))
  = Ok (bytes_of "+OK" ++ CRLF ++ bytes_of "$1" ++ CRLF ++ bytes_of "v" ++ CRLF
        ++ bytes_of ":1" ++ CRLF, mkStore ∅).
Proof.
  intros b.
  rewrite (handleConn_pipelined (fun i => 1000 + Z.of_nat i) [] (mkStore ∅)
             [[b "SET"; b "k"; b "v"]; [b "GET"; b "k"]; [b "DEL"; b "k"]]%string).
  - vm_compute. reflexivity.
  - repeat (apply Forall_cons_2;
            [split; [bulk_ok_tac|split; [discriminate|unfold MaxInt64; cbn; lia]]|]).
    apply Forall_nil_2.
Defined.

(* ===================================================================== *)
(** * Further properties of the janitor and of DEL                        *)
(* ===================================================================== *)

Lemma janitor_tick_lookup st now k : data (janitor_tick st now) !! k = get st k now.
Proof. unfold janitor_tick. by apply janitor_tick_in_lookup. Qed.

(** X19.  Sweeping is cumulative: a tick followed by a tick at the same or
    a later time leaves the store that the later tick alone would leave,
    so a second tick at the same time changes nothing.  A tick never adds
    an entry: the map it leaves is contained in the one it found. *)
Theorem janitor_tick_compose st t t' :
  t <= t' ->
  janitor_tick (janitor_tick st t) t' = janitor_tick st t' /\
  janitor_tick (janitor_tick st t) t = janitor_tick st t /\
  data (janitor_tick st t) ⊆ data st /\
  (size (data (janitor_tick st t)) <= size (data st))%nat.
Proof.
  intros Ht.
  assert (forall u, t <= u -> janitor_tick (janitor_tick st t) u = janitor_tick st u)
    as Hcomp.
  { intros u Hu. apply Store_eq. intros k.
    rewrite !janitor_tick_lookup, (get_lookup (janitor_tick st t)),
      janitor_tick_lookup, !get_lookup.
    destruct (data st !! k) as [e|]; [|done].
    destruct ((0 <? exp e) && (exp e <? t)) eqn:E; [|done].
    apply expired_true in E. rewrite (proj2 (expired_true e u)); [done|lia]. }
  assert (data (janitor_tick st t) ⊆ data st) as Hsub.
  { apply map_subseteq_spec. intros k e. rewrite janitor_tick_lookup, get_lookup.
    destruct (data st !! k) as [e'|]; [|done]. by destruct (_ && _). }
  split; [by apply Hcomp|]. split; [apply Hcomp; lia|]. split; [done|].
  by apply map_subseteq_size.
Qed.

Lemma janitor_tick_compose_witness :
  let st := set (set (mkStore ∅) "a" (Some []) 100 1000) "b" (Some []) 900 1000 in
  janitor_tick (janitor_tick st 1500) 2500 = janitor_tick st 2500 /\
  janitor_tick (janitor_tick st 1500) 1500 = janitor_tick st 1500.
Proof.
  intros st. destruct (janitor_tick_compose st 1500 2500) as (H1 & H2 & _); [lia|].
  by split.
Defined.

Lemma del_loop_acc ks : forall m n,
  del_loop m ks n = ((del_loop m ks 0).1, n + (del_loop m ks 0).2).
Proof.
  induction ks as [|k ks IH]; intros m n; cbn [del_loop].
  - cbn. f_equal. lia.
  - destruct (m !! k); [|apply IH].
    rewrite (IH _ (n + 1)), (IH _ (0 + 1)). cbn [fst snd]. f_equal. lia.
Qed.

Lemma del_loop_app ks ks' : forall m n,
  del_loop m (ks ++ ks') n = del_loop (del_loop m ks n).1 ks' (del_loop m ks n).2.
Proof.
  induction ks as [|k ks IH]; intros m n; cbn [app del_loop]; [done|].
  destruct (m !! k); apply IH.
Qed.

Lemma del_pair st ks : del st ks = (mkStore (del_loop (data st) ks 0).1,
                                    (del_loop (data st) ks 0).2).
Proof. unfold del. by destruct (del_loop _ _ _). Qed.

(** X20.  DEL composes and is idempotent: deleting two lists of keys one
    after the other is deleting their concatenation, and the two counts
    add up; deleting the same keys again removes nothing and counts 0.
    A deleted key is gone for every reader: at any time GET replies the
    null bulk and TTL replies -2. *)
Theorem del_compose st ks ks' :
  (del st (ks ++ ks')).1 = (del (del st ks).1 ks').1 /\
  (del st (ks ++ ks')).2 = (del st ks).2 + (del (del st ks).1 ks').2 /\
  del (del st ks).1 ks = ((del st ks).1, 0) /\
  (forall w c kv now, string_of_slice (resp.B kv) ∈ ks ->
     get (del st ks).1 (string_of_slice (resp.B kv)) now = None /\
     handleGet w (del st ks).1 [c; kv] now = resp.WriteBulk w None /\
     handleTTL w (del st ks).1 [c; kv] now = resp.WriteInteger w (-2)).
Proof.
  assert (forall k, k ∈ ks -> data (del st ks).1 !! k = None) as Hgone.
  { intros k Hk. by rewrite del_fst, del_loop_lookup, decide_True. }
  split; [|split; [|split]].
  - rewrite !del_pair. cbn [fst data]. by rewrite del_loop_app, del_loop_acc.
  - rewrite !del_pair. cbn [fst snd data].
    rewrite del_loop_app, del_loop_acc. cbn [snd]. lia.
  - assert ((del (del st ks).1 ks).1 = (del st ks).1) as Heq.
    { apply Store_eq. intros k. rewrite del_fst, del_loop_lookup.
      destruct (decide (k ∈ ks)); [by rewrite Hgone|done]. }
    rewrite (surjective_pairing (del (del st ks).1 ks)). f_equal; [done|].
    rewrite del_snd, del_loop_count, <- del_fst, Heq. lia.
  - intros w c kv now Hk. specialize (Hgone _ Hk).
    split; [by rewrite get_lookup, Hgone|]. split.
    + by rewrite handleGet_two, get_lookup, Hgone.
    + by rewrite handleTTL_two, Hgone.
Qed.

Lemma del_compose_witness :
  let b s := bulk (Some (bytes_of s)) in
  let st := set (mkStore ∅) "a" (Some (bytes_of "x")) 0 5 in
  handleGet [] (del st ["a"; "b"]%string).1 [b "GET"; b "a"] 9 = resp.WriteBulk [] None /\
  handleTTL [] (del st ["a"; "b"]%string).1 [b "TTL"; b "a"] 9 = resp.WriteInteger [] (-2) /\
  del (del st ["a"; "b"]%string).1 ["a"; "b"]%string = ((del st ["a"; "b"]%string).1, 0).
Proof.
  intros b st.
  destruct (del_compose st ["a"; "b"]%string []) as (_ & _ & Hidem & Hgone).
  destruct (Hgone [] (b "GET"%string) (b "a"%string) 9) as (_ & Hget & _);
    [apply elem_of_cons; by left|].
  destruct (Hgone [] (b "TTL"%string) (b "a"%string) 9) as (_ & _ & Httl);
    [apply elem_of_cons; by left|].
  by split; [|split].
Defined.

(* ===================================================================== *)
(** * Line endings                                                        *)
(* ===================================================================== *)

Lemma TrimSuffix_bare_LF l c : c <> CR -> TrimSuffix ((l ++ [c]) ++ [LF]) CRLF
                                          = (l ++ [c]) ++ [LF].
Proof.
  intros Hc. unfold TrimSuffix, HasSuffix, CRLF.
  rewrite !rev_app_distr. cbn [rev app HasPrefix].
  destruct (Ascii.eqb_spec CR c) as [Heq|_]; [by destruct Hc|].
  by rewrite andb_false_r.
Qed.

Lemma ParseUint_loop_stops ds x more : forall acc,
  Forall (fun c => isDigit c = true) ds -> isDigit x = false -> 0 <= acc ->
  digitsValue ds acc <= MaxUint64 ->
  ParseUint_loop (ds ++ x :: more) acc = (0, Some ErrSyntax).
Proof.
  induction ds as [|c ds IH]; intros acc Hds Hx Hacc Hmax; cbn [app ParseUint_loop].
  - by rewrite Hx.
  - inversion Hds as [|? ? Hc Hds']; subst. rewrite Hc.
    pose proof (isDigit_value c Hc) as Hd. cbn [digitsValue fold_left] in Hmax.
    assert (acc * 10 + (byteZ c - 48) <= MaxUint64) as Hn1.
    { etrans; [apply (digitsValue_ge ds)|exact Hmax]; [done|lia]. }
    unfold MaxUint64 in *.
    destruct (Z.leb_spec (((2 ^ 64 - 1) / 10) + 1) acc) as [Hge|_].
    { change ((2 ^ 64 - 1) / 10 + 1) with 1844674407370955162 in Hge. lia. }
    destruct (Z.ltb_spec (2 ^ 64 - 1) (acc * 10 + (byteZ c - 48))) as [Hlt|_]; [lia|].
    apply IH; [done|done|lia|done].
Qed.

(** X21.  Only the pair CR LF ends a line cleanly.  A line that ends with a
    bare line feed is still taken as a line, but the line feed stays in the
    text: a simple string keeps it as its last byte, and an integer line
    no longer reads as a number and decodes to 0. *)
Theorem Read_bare_line_feed l c rest :
  LF ∉ l ++ [c] -> c <> CR ->
  resp.readLine ((l ++ [c]) ++ LF :: rest)
  = (string_of ((l ++ [c]) ++ [LF]), None, rest) /\
  resp.Read ("+"%char :: (l ++ [c]) ++ LF :: rest)
  = Ok (resp.mkValue resp.SimpleString (string_of ((l ++ [c]) ++ [LF])) 0 None [],
        rest) /\
  (forall n, 0 <= n <= MaxUint64 -> l ++ [c] = fmtUint n ->
     resp.Read (":"%char :: (l ++ [c]) ++ LF :: rest)
     = Ok (resp.mkValue resp.Integer "" 0 None [], rest)).
Proof.
  intros Hl Hc.
  assert (resp.readLine ((l ++ [c]) ++ LF :: rest)
          = (string_of ((l ++ [c]) ++ [LF]), None, rest)) as Hline.
  { unfold resp.readLine. rewrite ReadBytes_found by done.
    by rewrite TrimSuffix_bare_LF. }
  split; [done|]. split.
  - apply Read_of_fuel. intros fuel. cbn [resp.Read_fuel ReadByte]. by rewrite Hline.
  - intros n Hn Heq. apply Read_of_fuel. intros fuel.
    cbn [resp.Read_fuel ReadByte]. rewrite Hline.
    cbn [Ascii.eqb Bool.eqb]. cbn match.
    assert (ParseInt (string_of ((l ++ [c]) ++ [LF])) = (0, Some ErrSyntax)) as ->;
      [|done].
    unfold ParseInt. rewrite bytes_of_string_of, Heq.
    destruct (fmtUint_cons n) as (d & ds & Hd).
    assert (0 <= n) as Hpos by lia.
    pose proof (fmtUint_digits n Hpos) as Hdig.
    pose proof (fmtUint_value n Hpos) as Hval. rewrite Hd in Hdig, Hval |- *.
    pose proof (Forall_inv Hdig) as Hdd. cbn beta in Hdd. cbn [app].
    destruct (isDigit_not_sign d Hdd) as [-> ->]. cbn [orb].
    unfold ParseUint.
    change (d :: ds ++ [LF]) with ((d :: ds) ++ [LF]).
    rewrite ParseUint_loop_stops; [done|done|done|lia|lia].
Qed.

Lemma Read_bare_line_feed_witness :
  resp.Read (bytes_of "+OK" ++ [LF])
  = Ok (resp.mkValue resp.SimpleString (string_of (bytes_of "OK" ++ [LF])) 0 None [], [])
  /\ resp.Read (bytes_of ":12" ++ [LF]) = Ok (resp.mkValue resp.Integer "" 0 None [], []).
Proof.
  assert (forall s, forallb (fun c => negb (Ascii.eqb c LF)) s = true -> LF ∉ s) as Hno.
  { intros s Hall Hin. rewrite forallb_forall in Hall.
    apply list_elem_of_In, Hall in Hin. by rewrite Ascii.eqb_refl in Hin. }
  split.
  - destruct (Read_bare_line_feed (bytes_of "O") "K" []) as (_ & H & _);
      [by apply Hno|discriminate|exact H].
  - destruct (Read_bare_line_feed (bytes_of "1") "2" []) as (_ & _ & H);
      [by apply Hno|discriminate|].
    apply (H 12); [unfold MaxUint64; lia|reflexivity].
Defined.
